(** * WebTransport transport of go-libp2p: address codec and listener

    A shallow embedding of [p2p/transport/webtransport/multiaddr.go] and of
    the listener ([newListener], [Accept], [handshake], [Multiaddr],
    [Close]) together with the properties stated about them.

    Layout:
    - [result]: Go's [(value, error)] returns;
    - [ma], [mafmt], [manet]: the parts of go-multiaddr, go-multiaddr-fmt
      and go-multiaddr/net that the package calls;
    - [Multiformats]: the interface of go-multibase and go-multihash;
    - the functions of multiaddr.go;
    - the listener as a transition system over goroutine schedules. *)

From Stdlib Require Import ZArith List String Ascii Bool Lia Arith.
From Stdlib.Strings Require Import Byte.
From Stdlib Require DecimalString DecimalN DecimalFacts.
Import ListNotations.

(** ** Errors and fallible results *)

(** The errors that can be observed.  [errLib] stands for an error value
    produced inside one of the external libraries. *)
Inductive error : Type :=
| errClosed                              (* errors.New("closed") *)
| errNotUDP                              (* errors.New("not a UDP address") *)
| errMultibaseDecode (cause : error)     (* "failed to multibase-decode certificate hash: %w" *)
| errMultihashDecode (cause : error)     (* "failed to multihash-decode certificate hash: %w" *)
| errLib (msg : string).

Inductive result (A : Type) : Type :=
| Ok (a : A)
| Err (e : error).
Arguments Ok {A} a.
Arguments Err {A} e.

Definition bind {A B} (r : result A) (k : A -> result B) : result B :=
  match r with
  | Ok a => k a
  | Err e => Err e
  end.

Declare Scope result_scope.
Delimit Scope result_scope with result.
Notation "x <- r ;; k" := (bind r (fun x => k))
  (at level 61, r at next level, right associativity) : result_scope.

Definition isOk {A} (r : result A) : bool :=
  match r with Ok _ => true | Err _ => false end.

Definition bytes := list byte.

(** ** go-multiaddr: addresses as sequences of components *)

Module ma.

Definition P_IP4 : Z := 4.
Definition P_TCP : Z := 6.
Definition P_IP6 : Z := 41.
Definition P_IP6ZONE : Z := 42.
Definition P_UDP : Z := 273.
Definition P_UNIX : Z := 400.
Definition P_SNI : Z := 449.
Definition P_QUIC : Z := 460.
Definition P_WEBTRANSPORT : Z := 465.
Definition P_CERTHASH : Z := 466.

Record Protocol : Type := { Name : string; Code : Z }.

Record Component : Type := { Proto : Protocol; Value : string }.

(** A multiaddr is the ordered sequence of its components. *)
Definition Multiaddr := list Component.

Definition protoIP4 := {| Name := "ip4"; Code := P_IP4 |}.
Definition protoTCP := {| Name := "tcp"; Code := P_TCP |}.
Definition protoIP6 := {| Name := "ip6"; Code := P_IP6 |}.
Definition protoIP6ZONE := {| Name := "ip6zone"; Code := P_IP6ZONE |}.
Definition protoUDP := {| Name := "udp"; Code := P_UDP |}.
Definition protoUNIX := {| Name := "unix"; Code := P_UNIX |}.
Definition protoSNI := {| Name := "sni"; Code := P_SNI |}.
Definition protoQUIC := {| Name := "quic"; Code := P_QUIC |}.
Definition protoWEBTRANSPORT := {| Name := "webtransport"; Code := P_WEBTRANSPORT |}.
Definition protoCERTHASH := {| Name := "certhash"; Code := P_CERTHASH |}.

Definition Protocols_table : list Protocol :=
  [protoIP4; protoTCP; protoIP6; protoIP6ZONE; protoUDP; protoUNIX;
   protoSNI; protoQUIC; protoWEBTRANSPORT; protoCERTHASH].

(** [ProtocolWithCode]: the zero protocol when the code is unknown. *)
Definition ProtocolWithCode (c : Z) : Protocol :=
  match find (fun p => Code p =? c)%Z Protocols_table with
  | Some p => p
  | None => {| Name := ""; Code := 0 |}
  end.

(** [m.Encapsulate(o)]: [o] appended to [m]. *)
Definition Encapsulate (m o : Multiaddr) : Multiaddr := m ++ o.

(** [m.Protocols()]. *)
Definition Protocols (m : Multiaddr) : list Protocol := map Proto m.

(** [ma.ForEach(m, cb)]: walks the components in order and stops as soon
    as the callback returns false.  The variables the Go closure captures
    are the state [S] threaded through the callback. *)
Fixpoint ForEach {S : Type} (m : Multiaddr) (cb : Component -> S -> bool * S)
         (s : S) : S :=
  match m with
  | [] => s
  | c :: m' =>
      let '(continue, s') := cb c s in
      if continue then ForEach m' cb s' else s'
  end.

(** [m.ValueForProtocol(code)]: the value of the first component with
    that code, [ErrProtocolNotFound] otherwise. *)
Fixpoint ValueForProtocol (m : Multiaddr) (code : Z) : result string :=
  match m with
  | [] => Err (errLib "protocol not found in multiaddr")
  | c :: m' =>
      if (Code (Proto c) =? code)%Z then Ok (Value c)
      else ValueForProtocol m' code
  end.

(** [ma.SplitLast(m)]: everything but the last component, and the last. *)
Definition SplitLast (m : Multiaddr) : Multiaddr * Multiaddr :=
  match rev m with
  | [] => ([], [])
  | c :: r => (rev r, [c])
  end.

(** A component of a protocol that carries no value. *)
Definition marker (p : Protocol) : Component := {| Proto := p; Value := "" |}.

Definition hasCode (code : Z) (c : Component) : bool :=
  (Code (Proto c) =? code)%Z.

End ma.

(** ** go-multiaddr-fmt: patterns over the protocol sequence *)

Module mafmt.

#[warnings="-register-all"] Inductive Pattern : Type :=
| Base (code : Z)
| And (ps : list Pattern)
| Or (ps : list Pattern).

(** [partialMatch]: whether a prefix of the protocols matches, and the
    protocols left over. *)
Fixpoint partialMatch (p : Pattern) (pcs : list ma.Protocol)
  : bool * list ma.Protocol :=
  match p with
  | Base code =>
      match pcs with
      | [] => (false, [])
      | pc :: rest =>
          if (ma.Code pc =? code)%Z then (true, rest) else (false, [])
      end
  | Or ps =>
      (fix alt (args : list Pattern) : bool * list ma.Protocol :=
         match args with
         | [] => (false, [])
         | a :: args' =>
             let '(ok, rem) := partialMatch a pcs in
             if ok then (true, rem) else alt args'
         end) ps
  | And ps =>
      if (List.length pcs <? List.length ps)%nat then (false, [])
      else
        (fix seq (args : list Pattern) (pcs : list ma.Protocol)
           : bool * list ma.Protocol :=
           match args with
           | [] => (true, pcs)
           | a :: args' =>
               let '(ok, rem) := partialMatch a pcs in
               if ok then seq args' rem else (false, [])
           end) ps pcs
  end.

(** [ptrn.Matches(a)]: the pattern consumes all the protocols. *)
Definition Matches (p : Pattern) (a : ma.Multiaddr) : bool :=
  let '(ok, rem) := partialMatch p (ma.Protocols a) in
  ok && (List.length rem =? 0)%nat.

(** [mafmt.IP]. *)
Definition IP : Pattern := Or [Base ma.P_IP4; Base ma.P_IP6].

End mafmt.

(** ** net and go-multiaddr/net: from socket addresses to multiaddrs *)

Module net.

(** An IP address, a byte slice in Go, classified the way [ip.To4()]
    does: [IPv4] when [ip.To4()] is not nil, and [IPv6 raw] for every other
    slice, with its bytes.  The nil IP is [IPv6 []]. *)
Inductive IP : Type :=
| IPv4 (a b c d : byte)
| IPv6 (raw : bytes).

(** [ip.To4() != nil] *)
Definition To4 (ip : IP) : bool :=
  match ip with
  | IPv4 _ _ _ _ => true
  | IPv6 _ => false
  end.

(** [ip.To16() != nil]: beside the IPv4 addresses, the slices of
    [IPv6len] bytes. *)
Definition To16 (ip : IP) : bool :=
  match ip with
  | IPv4 _ _ _ _ => true
  | IPv6 raw => (List.length raw =? 16)%nat
  end.

(** The dynamic types behind a [net.Addr].  A port is the [Port] field
    of the address, an int that is not negative.  [UnixAddr] carries the
    [Name] and the [Net] of the socket.  [OtherAddr] is an address of any
    other type, with the name its [Network()] returns. *)
Inductive Addr : Type :=
| TCPAddr (ip : IP) (port : N) (zone : string)
| UDPAddr (ip : IP) (port : N) (zone : string)
| IPAddr (ip : IP) (zone : string)
| IPNet (ip : IP)
| UnixAddr (name : string) (net : string)
| OtherAddr (network : string).

(** [a.Network()] *)
Definition Network (a : Addr) : string :=
  match a with
  | TCPAddr _ _ _ => "tcp"
  | UDPAddr _ _ _ => "udp"
  | IPAddr _ _ => "ip"
  | IPNet _ => "ip+net"
  | UnixAddr _ net => net
  | OtherAddr network => network
  end.

Definition isUDP (na : Addr) : bool :=
  match na with UDPAddr _ _ _ => true | _ => false end.

End net.

Module manet.

(** [var errIncorrectNetAddr = fmt.Errorf("incorrect network addr conversion")] *)
Definition errIncorrectNetAddr : error :=
  errLib "incorrect network addr conversion".

(** [strings.Contains(s, string(c))] *)
Definition contains (c : ascii) (s : string) : bool :=
  existsb (Ascii.eqb c) (list_ascii_of_string s).

Section FromNetAddr.

(** [net.IP.String]: the textual form of an IP address. *)
Variable IP_String : net.IP -> string.

Definition itoa (n : N) : string :=
  DecimalString.NilEmpty.string_of_uint (N.to_uint n).

Definition comp (p : ma.Protocol) (v : string) : ma.Component :=
  {| ma.Proto := p; ma.Value := v |}.

(** [ma.NewComponent("ip6zone", zone)]: the transcoder of the protocol
    refuses the empty zone and a zone with a slash. *)
Definition ip6zoneComponent (zone : string) : result ma.Multiaddr :=
  if String.eqb zone "" then Err (errLib "empty ip6zone")
  else if contains "/" zone
  then Err (errLib ("IPv6 zone ID contains '/': " ++ zone))
  else Ok [comp ma.protoIP6ZONE zone].

(** [manet.FromIPAndZone] *)
Definition FromIPAndZone (ip : net.IP) (zone : string) : result ma.Multiaddr :=
  if net.To4 ip then Ok [comp ma.protoIP4 (IP_String ip)]
  else if net.To16 ip then
    let ip6 := [comp ma.protoIP6 (IP_String ip)] in
    if String.eqb zone "" then Ok ip6
    else
      match ip6zoneComponent zone with
      | Err err => Err err
      | Ok zone => Ok (ma.Encapsulate zone ip6)
      end
  else Err errIncorrectNetAddr.

(** [manet.FromIP] *)
Definition FromIP (ip : net.IP) : result ma.Multiaddr := FromIPAndZone ip "".

(** [ma.NewMultiaddr(fmt.Sprintf("/tcp/%d", port))], and the same for
    udp: the transcoder of the port refuses 65536 and above, and the
    component holds the port in decimal.  The callers replace the error,
    so that its text is left out. *)
Definition portMultiaddr (p : ma.Protocol) (port : N) : option ma.Multiaddr :=
  if (65536 <=? port)%N then None else Some [comp p (itoa port)].

Definition parseTCPNetAddr (a : net.Addr) : result ma.Multiaddr :=
  match a with
  | net.TCPAddr ip port zone =>
      match FromIPAndZone ip zone with
      | Err _ => Err errIncorrectNetAddr
      | Ok ipm =>
          match portMultiaddr ma.protoTCP port with
          | None => Err errIncorrectNetAddr
          | Some tcpm => Ok (ma.Encapsulate ipm tcpm)
          end
      end
  | _ => Err errIncorrectNetAddr
  end.

Definition parseUDPNetAddr (a : net.Addr) : result ma.Multiaddr :=
  match a with
  | net.UDPAddr ip port zone =>
      match FromIPAndZone ip zone with
      | Err _ => Err errIncorrectNetAddr
      | Ok ipm =>
          match portMultiaddr ma.protoUDP port with
          | None => Err errIncorrectNetAddr
          | Some udpm => Ok (ma.Encapsulate ipm udpm)
          end
      end
  | _ => Err errIncorrectNetAddr
  end.

Definition parseIPNetAddr (a : net.Addr) : result ma.Multiaddr :=
  match a with
  | net.IPAddr ip zone => FromIPAndZone ip zone
  | _ => Err errIncorrectNetAddr
  end.

Definition parseIPPlusNetAddr (a : net.Addr) : result ma.Multiaddr :=
  match a with
  | net.IPNet ip => FromIP ip
  | _ => Err errIncorrectNetAddr
  end.

(** Outside Windows, where the path is first rewritten with slashes. *)
Definition parseUnixNetAddr (a : net.Addr) : result ma.Multiaddr :=
  match a with
  | net.UnixAddr name _ =>
      let path :=
        match name with
        | String "/" _ => name
        | _ => ("/" ++ name)%string
        end in
      Ok [comp ma.protoUNIX path]
  | _ => Err errIncorrectNetAddr
  end.

(** The parsers registered by the package for the names of networks. *)
Definition addrParsers : list (string * (net.Addr -> result ma.Multiaddr)) :=
  [("tcp", parseTCPNetAddr); ("tcp4", parseTCPNetAddr); ("tcp6", parseTCPNetAddr);
   ("udp", parseUDPNetAddr); ("udp4", parseUDPNetAddr); ("udp6", parseUDPNetAddr);
   ("ip", parseIPNetAddr); ("ip4", parseIPNetAddr); ("ip6", parseIPNetAddr);
   ("ip+net", parseIPPlusNetAddr);
   ("unix", parseUnixNetAddr)]%string.

Definition getAddrParser (network : string)
  : result (net.Addr -> result ma.Multiaddr) :=
  match find (fun entry => String.eqb (fst entry) network) addrParsers with
  | Some (_, parser) => Ok parser
  | None => Err (errLib ("unknown network " ++ network))
  end.

(** [manet.FromNetAddr]: the parser registered for the network of the
    address, applied to the address. *)
Definition FromNetAddr (a : net.Addr) : result ma.Multiaddr :=
  match getAddrParser (net.Network a) with
  | Err err => Err err
  | Ok p => p a
  end.

End FromNetAddr.

End manet.

(** ** go-multibase and go-multihash *)

(** A multibase encoding is named by its prefix character. *)
Definition Encoding := ascii.

Module multibase.
Definition Identity : Encoding := "000"%char.
Definition Base16 : Encoding := "f"%char.
Definition Base32hex : Encoding := "v"%char.
Definition Base58BTC : Encoding := "z"%char.
Definition Base64url : Encoding := "u"%char.
End multibase.

Module multihash.
Definition SHA2_256 : Z := 18.
Definition KECCAK_224 : Z := 26.

(** [multihash.DecodedMultihash]. *)
Record DecodedMultihash : Type := {
  Code : Z;
  Name : string;
  Length : Z;
  Digest : bytes
}.
End multihash.

(** The functions of the two codec libraries and of go-multiaddr's
    component constructor that multiaddr.go calls. *)
Class Multiformats : Type := {
  multibase_Encode : Encoding -> bytes -> result string;
  multibase_Decode : string -> result (Encoding * bytes);
  multihash_Encode : bytes -> Z -> result bytes;
  multihash_Decode : bytes -> result multihash.DecodedMultihash;
  ma_NewComponent : string -> string -> result ma.Multiaddr
}.

(** ** multiaddr.go *)

Section MultiaddrGo.

Context {MF : Multiformats}.
Variable IP_String : net.IP -> string.

Local Open Scope result_scope.

(** [var webtransportMA = ma.StringCast("/quic/webtransport")] *)
Definition webtransportMA : ma.Multiaddr :=
  [ma.marker ma.protoQUIC; ma.marker ma.protoWEBTRANSPORT].

(** [var webtransportMatcher = mafmt.And(mafmt.IP, mafmt.Base(ma.P_UDP),
    mafmt.Base(ma.P_QUIC), mafmt.Base(ma.P_WEBTRANSPORT))] *)
Definition webtransportMatcher : mafmt.Pattern :=
  mafmt.And [mafmt.IP; mafmt.Base ma.P_UDP; mafmt.Base ma.P_QUIC;
             mafmt.Base ma.P_WEBTRANSPORT].

Definition toWebtransportMultiaddr (na : net.Addr) : result ma.Multiaddr :=
  match manet.FromNetAddr IP_String na with
  | Err err => Err err
  | Ok addr =>
      match ma.ValueForProtocol addr ma.P_UDP with
      | Err _ => Err errNotUDP
      | Ok _ => Ok (ma.Encapsulate addr webtransportMA)
      end
  end.

(** The second loop of [extractCertHashes]: decode the collected strings
    one after the other, leaving at the first failure. *)
Fixpoint decodeCertHashes (certHashesStr : list string)
         (certHashes : list multihash.DecodedMultihash)
  : result (list multihash.DecodedMultihash) :=
  match certHashesStr with
  | [] => Ok certHashes
  | s :: rest =>
      match multibase_Decode s with
      | Err err => Err (errMultibaseDecode err)
      | Ok (_, ch) =>
          match multihash_Decode ch with
          | Err err => Err (errMultihashDecode err)
          | Ok dh => decodeCertHashes rest (certHashes ++ [dh])
          end
      end
  end.

Definition extractCertHashes (addr : ma.Multiaddr)
  : result (list multihash.DecodedMultihash) :=
  let certHashesStr :=
    ma.ForEach addr
      (fun c certHashesStr =>
         if (ma.Code (ma.Proto c) =? ma.P_CERTHASH)%Z
         then (true, certHashesStr ++ [ma.Value c])
         else (true, certHashesStr))
      [] in
  decodeCertHashes certHashesStr [].

Definition addrComponentForCert (hash : bytes) : result ma.Multiaddr :=
  mh <- multihash_Encode hash multihash.SHA2_256 ;;
  certStr <- multibase_Encode multibase.Base58BTC mh ;;
  ma_NewComponent (ma.Name (ma.ProtocolWithCode ma.P_CERTHASH)) certStr.

End MultiaddrGo.

(** ** Dialable and listenable addresses *)

Definition isCertHash (c : ma.Component) : bool := ma.hasCode ma.P_CERTHASH c.

(** The address without the certificate-hash components it ends with. *)
Fixpoint dropCertHashes (r : list ma.Component) : list ma.Component :=
  match r with
  | [] => []
  | c :: r' => if isCertHash c then dropCertHashes r' else r
  end.

Definition withoutTrailingCertHashes (a : ma.Multiaddr) : ma.Multiaddr :=
  rev (dropCertHashes (rev a)).

(** Modelled from the spec: the listen-address check of [transport.Listen]
    (transport.go is missing here).  A listenable address has the network,
    the port and the two protocol markers in order, and no certificate-hash
    component: it is matched by [webtransportMatcher] as it stands. *)
Definition isListenable (a : ma.Multiaddr) : bool :=
  mafmt.Matches webtransportMatcher a.

(** Modelled from the spec: [transport.CanDial] (transport.go is missing
    here).  A dialable address has the same shape followed by zero or more
    certificate-hash components. *)
Definition isDialable (a : ma.Multiaddr) : bool :=
  mafmt.Matches webtransportMatcher (withoutTrailingCertHashes a).

(** ** Vocabulary for the statements about certificate hashes *)

Section CertHashSpec.

Context {MF : Multiformats}.

(** The texts of the certhash components of an address, in order. *)
Definition certHashValues (a : ma.Multiaddr) : list string :=
  map ma.Value (filter isCertHash a).

(** The text [s] is a multibase string, in whatever encoding, whose
    bytes are the multihash [dh]. *)
Definition decodesTo (s : string) (dh : multihash.DecodedMultihash) : Prop :=
  exists e ch, multibase_Decode s = Ok (e, ch) /\ multihash_Decode ch = Ok dh.

(** The text [s] is refused by one of the two decoders. *)
Definition malformed (s : string) (err : error) : Prop :=
  (exists e, multibase_Decode s = Err e /\ err = errMultibaseDecode e) \/
  (exists enc ch e, multibase_Decode s = Ok (enc, ch) /\
                    multihash_Decode ch = Err e /\ err = errMultihashDecode e).

(** The contracts of the libraries.  Encoding a digest as a SHA2-256
    multihash and decoding it gives the code and the digest back. *)
Definition multihash_roundtrip : Prop :=
  forall h : bytes,
  exists mh dh,
    multihash_Encode h multihash.SHA2_256 = Ok mh /\
    multihash_Decode mh = Ok dh /\
    multihash.Code dh = multihash.SHA2_256 /\ multihash.Digest dh = h.

(** Decoding a base58btc multibase string gives the encoded bytes back. *)
Definition multibase_roundtrip : Prop :=
  forall b : bytes,
  exists s,
    multibase_Encode multibase.Base58BTC b = Ok s /\
    multibase_Decode s = Ok (multibase.Base58BTC, b).

(** [NewComponent] accepts as certhash value any multibase string that
    holds a multihash, and the value of the component it builds, however
    it is written, holds the same bytes. *)
Definition NewComponent_certhash : Prop :=
  forall s e ch dh,
    multibase_Decode s = Ok (e, ch) ->
    multihash_Decode ch = Ok dh ->
    exists c e',
      ma_NewComponent "certhash" s = Ok [c] /\
      ma.Code (ma.Proto c) = ma.P_CERTHASH /\
      multibase_Decode (ma.Value c) = Ok (e', ch).

End CertHashSpec.

(** ** The certificate manager *)

(** Modelled from the spec: [certManager] (cert_manager.go is missing here).
    It owns the current certificate and, around a rotation, the next one,
    each with the address component of its hash; with a static TLS
    configuration supplied by the caller it generates no certificate and
    advertises no hash. *)
Inductive certManager : Type :=
| Rotating (current : ma.Component) (next : option ma.Component)
| StaticTLS.

(** Modelled from the spec: [certManager.AddrComponent], the components of
    the one or two advertised hashes, none under a static configuration. *)
Definition AddrComponent (m : certManager) : ma.Multiaddr :=
  match m with
  | Rotating current None => [current]
  | Rotating current (Some next) => [current; next]
  | StaticTLS => []
  end.

(** Modelled from the spec: a rotation drops the current certificate, makes
    the next one current and installs a fresh next one. *)
Definition rotate (fresh : ma.Component) (m : certManager) : certManager :=
  match m with
  | Rotating current None => Rotating current (Some fresh)
  | Rotating _ (Some next) => Rotating next (Some fresh)
  | StaticTLS => StaticTLS
  end.

(** ** The listener *)

(** [const queueLen = 16] *)
Definition queueLen : nat := 16.

(** A [*webtransport.Conn] (a raw session), a stream of it, a key and the
    outcome of the identity handshake are named by numbers. *)
Definition Session := nat.
Definition Stream := nat.
Definition Key := nat.
Definition PeerID := nat.

(** What [noise.SecureInbound] returns: the two ends' keys. *)
Record SecureConn : Type := {
  LocalPrivateKey : Key;
  RemotePublicKey : Key
}.

(** The connection built by [newConn] (conn.go is missing here): it keeps
    the raw session and the keys it was given. *)
Record CapableConn : Type := {
  connSession : Session;
  connLocalKey : Key;
  connRemoteKey : Key
}.

Inductive Direction : Type := DirInbound | DirOutbound.

(** Everything outside the listener: the behaviour of each raw session, of
    the identity handshake and of the server, and the two policy
    collaborators of the transport.  An error of [AcceptStream] or
    [SecureInbound] covers the expiry of the handshake context
    ([handshakeTimeout], or the cancellation of the listener's context). *)
Record World : Type := {
  AcceptStream : Session -> result Stream;              (* c.AcceptStream(ctx) *)
  SecureInbound : Session -> Stream -> result SecureConn; (* l.noise.SecureInbound(ctx, stream, "") *)
  newConn : Session -> Key -> Key -> result CapableConn;  (* newConn(l.transport, c, priv, pub) *)
  serverClose : option error;                            (* the value of l.server.Close() *)
  OpenConnection : Direction -> bool -> Session -> option error; (* resource manager *)
  InterceptSecured : Direction -> PeerID -> CapableConn -> bool  (* connection gater *)
}.

Section Listener.

Variable w : World.

Local Open Scope result_scope.

(** [func (l *listener) handshake(ctx, c)] *)
Definition handshake (c : Session) : result CapableConn :=
  match AcceptStream w c with
  | Err err => Err err
  | Ok str =>
      match SecureInbound w c str with
      | Err err => Err err
      | Ok conn => newConn w c (LocalPrivateKey conn) (RemotePublicKey conn)
      end
  end.

(** Where the goroutine running [Accept] stands: not inside a call, at the
    first [select] (the check of [l.ctx.Done()]), or at the second one. *)
Inductive AcceptPC : Type := Idle | AtCtxCheck | AtSelect.

(** Where the goroutine running [Close] stands. *)
Inductive ClosePC : Type :=
| CloseNotCalled
| CloseAfterCancel                      (* after l.ctxCancel() *)
| CloseWaiting (err : option error)     (* after err := l.server.Close() *)
| CloseReturned (err : option error).   (* after <-l.serverClosed *)

(** The listener and its goroutines.  A buffered channel is its buffer (a
    FIFO list, oldest first) together with the senders parked on it. *)
Record State : Type := {
  ctxDone : bool;                       (* l.ctx is cancelled *)
  lqueue : list Session;                (* buffer of l.queue, capacity queueLen *)
  lsenders : list Session;              (* handlers parked at [ln.queue <- c] *)
  waiting : list Session;               (* handlers parked at [<-c.Context().Done()] *)
  call : nat;                           (* number of the current call of Accept *)
  pc : AcceptPC;
  popped : list Session;                (* every session Accept has received from l.queue *)
  workers : list (nat * Session);       (* handshake goroutines not yet run, with the call that started them *)
  results : list CapableConn;           (* buffer of the channel [queue] of the current call *)
  rsenders : list CapableConn;          (* handshake goroutines parked at [queue <- conn] *)
  orphans : list CapableConn;           (* connections sent on the channel of a call that has returned *)
  closedSessions : list Session;        (* sessions on which c.Close() was called *)
  returns : list (nat * result CapableConn); (* what each call of Accept returned, latest first *)
  serverClosedChan : bool;              (* l.serverClosed is closed *)
  serverShut : bool;                    (* l.server.Close() has run *)
  cpc : ClosePC
}.

(** The state [newListener] leaves behind. *)
Definition initial : State := {|
  ctxDone := false; lqueue := []; lsenders := []; waiting := [];
  call := 0; pc := Idle; popped := []; workers := []; results := [];
  rsenders := [];
  orphans := []; closedSessions := []; returns := [];
  serverClosedChan := false; serverShut := false; cpc := CloseNotCalled
|}.

(** The ready case the second [select] of [Accept] takes. *)
Inductive pick : Type := PickQueue | PickResult | PickDone.

(** The moves of the goroutines. *)
Inductive event : Type :=
| EvUpgrade (c : Session)     (* a handler: Upgrade succeeded, [ln.queue <- c] *)
| EvAcceptCall                (* the caller enters Accept() *)
| EvAccept (k : pick)         (* Accept(): the next select *)
| EvHandshake (c : Session)   (* the goroutine started for c runs to its end *)
| EvSessionDone (c : Session) (* the context of session c is done *)
| EvCloseStep                 (* Close(): the next statement *)
| EvServeReturn.              (* the serving goroutine: Serve returned *)

Definition set_pc (s : State) (p : AcceptPC) : State := {|
  ctxDone := ctxDone s; lqueue := lqueue s; lsenders := lsenders s;
  waiting := waiting s; call := call s; pc := p; popped := popped s;
  workers := workers s;
  results := results s; rsenders := rsenders s; orphans := orphans s;
  closedSessions := closedSessions s; returns := returns s;
  serverClosedChan := serverClosedChan s; serverShut := serverShut s;
  cpc := cpc s |}.

(** [return r] from the current call of [Accept]. *)
Definition accept_return (s : State) (r : result CapableConn) : State := {|
  ctxDone := ctxDone s; lqueue := lqueue s; lsenders := lsenders s;
  waiting := waiting s; call := call s; pc := Idle; popped := popped s;
  workers := workers s;
  results := results s; rsenders := rsenders s; orphans := orphans s;
  closedSessions := closedSessions s; returns := (call s, r) :: returns s;
  serverClosedChan := serverClosedChan s; serverShut := serverShut s;
  cpc := cpc s |}.

(** A send on a buffered channel of capacity [queueLen]: into the buffer
    when there is room, parked otherwise. *)
Definition chan_send {A} (buf parked : list A) (x : A) : list A * list A :=
  if (List.length buf <? queueLen)%nat then (buf ++ [x], parked)
  else (buf, parked ++ [x]).

(** A receive: the oldest element, the first parked sender moving into
    the buffer.  [None] when the channel is empty. *)
Definition chan_recv {A} (buf parked : list A) : option (A * list A * list A) :=
  match buf with
  | [] => None
  | x :: buf' =>
      match parked with
      | [] => Some (x, buf', [])
      | y :: parked' => Some (x, buf' ++ [y], parked')
      end
  end.

Fixpoint remove_worker (c : Session) (ws : list (nat * Session))
  : option (nat * list (nat * Session)) :=
  match ws with
  | [] => None
  | (k, c') :: ws' =>
      if (c' =? c)%nat then Some (k, ws')
      else match remove_worker c ws' with
           | Some (k', r) => Some (k', (k, c') :: r)
           | None => None
           end
  end.

(** The callback registered by [mux.HandleFunc(webtransportHTTPEndpoint, ...)]
    in [newListener], from the point where [ln.server.Upgrade] has returned
    the session [c]: [ln.queue <- c], then [<-c.Context().Done()]. *)
Definition upgradeHandler (s : State) (c : Session) : option State :=
  let '(q, p) := chan_send (lqueue s) (lsenders s) c in
  Some {| ctxDone := ctxDone s; lqueue := q; lsenders := p;
          waiting := if (List.length (lqueue s) <? queueLen)%nat
                     then waiting s ++ [c] else waiting s;
          call := call s; pc := pc s; popped := popped s;
          workers := workers s; results := results s;
          rsenders := rsenders s; orphans := orphans s;
          closedSessions := closedSessions s; returns := returns s;
          serverClosedChan := serverClosedChan s; serverShut := serverShut s;
          cpc := cpc s |}.

(** The same callback returning, once the context of [c] is done. *)
Definition upgradeHandlerReturn (s : State) (c : Session) : option State :=
  if existsb (Nat.eqb c) (waiting s) then
    Some {| ctxDone := ctxDone s; lqueue := lqueue s; lsenders := lsenders s;
            waiting := filter (fun c' => negb (c' =? c)%nat) (waiting s);
            call := call s; pc := pc s; popped := popped s;
            workers := workers s; results := results s;
            rsenders := rsenders s; orphans := orphans s;
            closedSessions := closedSessions s; returns := returns s;
            serverClosedChan := serverClosedChan s; serverShut := serverShut s;
            cpc := cpc s |}
  else None.

(** Entering [Accept]: [queue := make(chan tpt.CapableConn, queueLen)].
    What was left on the channel of the previous call is out of reach. *)
Definition AcceptEnter (s : State) : option State :=
  match pc s with
  | Idle =>
      Some {| ctxDone := ctxDone s; lqueue := lqueue s; lsenders := lsenders s;
              waiting := waiting s; call := S (call s); pc := AtCtxCheck;
              popped := popped s; workers := workers s;
              results := []; rsenders := [];
              orphans := orphans s ++ results s ++ rsenders s;
              closedSessions := closedSessions s; returns := returns s;
              serverClosedChan := serverClosedChan s; serverShut := serverShut s;
              cpc := cpc s |}
  | _ => None
  end.

(** The loop of [Accept], one select at a time.  At the second select the
    case taken is [k]; the move is impossible when that case is not
    ready. *)
Definition AcceptNext (s : State) (k : pick) : option State :=
  match pc s with
  | Idle => None
  | AtCtxCheck =>
      (* select { case <-l.ctx.Done(): return nil, errClosed; default: } *)
      if ctxDone s then Some (accept_return s (Err errClosed))
      else Some (set_pc s AtSelect)
  | AtSelect =>
      match k with
      | PickQueue =>
          (* case c = <-l.queue: go func(c *webtransport.Conn) {...}(c) *)
          match chan_recv (lqueue s) (lsenders s) with
          | None => None
          | Some (c, q, p) =>
              Some {| ctxDone := ctxDone s; lqueue := q; lsenders := p;
                      waiting := match lsenders s with
                                 | [] => waiting s
                                 | y :: _ => waiting s ++ [y]
                                 end;
                      call := call s; pc := AtCtxCheck;
                      popped := popped s ++ [c];
                      workers := workers s ++ [(call s, c)];
                      results := results s; rsenders := rsenders s;
                      orphans := orphans s;
                      closedSessions := closedSessions s; returns := returns s;
                      serverClosedChan := serverClosedChan s;
                      serverShut := serverShut s; cpc := cpc s |}
          end
      | PickResult =>
          (* case conn := <-queue: return conn, nil *)
          match chan_recv (results s) (rsenders s) with
          | None => None
          | Some (conn, r, p) =>
              Some {| ctxDone := ctxDone s; lqueue := lqueue s;
                      lsenders := lsenders s; waiting := waiting s;
                      call := call s; pc := Idle; popped := popped s;
                      workers := workers s;
                      results := r; rsenders := p; orphans := orphans s;
                      closedSessions := closedSessions s;
                      returns := (call s, Ok conn) :: returns s;
                      serverClosedChan := serverClosedChan s;
                      serverShut := serverShut s; cpc := cpc s |}
          end
      | PickDone =>
          (* case <-l.ctx.Done(): return nil, errClosed *)
          if ctxDone s then Some (accept_return s (Err errClosed)) else None
      end
  end.

(** The goroutine [go func(c *webtransport.Conn) {...}(c)] that [Accept]
    starts for a received session, run to its end: the handshake under
    its deadline, then either [c.Close()] or [queue <- conn].  The channel
    [queue] is the one of the call that started the goroutine; when that
    call has returned nobody receives from it any more. *)
Definition handshakeGoroutine (s : State) (c : Session) : option State :=
  match remove_worker c (workers s) with
  | None => None
  | Some (k, ws) =>
      match handshake c with
      | Err _ =>
          (* log.Debugw("handshake failed", "error", err); c.Close(); return *)
          Some {| ctxDone := ctxDone s; lqueue := lqueue s;
                  lsenders := lsenders s; waiting := waiting s;
                  call := call s; pc := pc s; popped := popped s;
                  workers := ws;
                  results := results s; rsenders := rsenders s;
                  orphans := orphans s;
                  closedSessions := closedSessions s ++ [c];
                  returns := returns s;
                  serverClosedChan := serverClosedChan s;
                  serverShut := serverShut s; cpc := cpc s |}
      | Ok conn =>
          (* queue <- conn *)
          let live := (k =? call s)%nat
                      && match pc s with Idle => false | _ => true end in
          let '(r, p) := if live then chan_send (results s) (rsenders s) conn
                         else (results s, rsenders s) in
          Some {| ctxDone := ctxDone s; lqueue := lqueue s;
                  lsenders := lsenders s; waiting := waiting s;
                  call := call s; pc := pc s; popped := popped s;
                  workers := ws;
                  results := r; rsenders := p;
                  orphans := if live then orphans s else orphans s ++ [conn];
                  closedSessions := closedSessions s; returns := returns s;
                  serverClosedChan := serverClosedChan s;
                  serverShut := serverShut s; cpc := cpc s |}
      end
  end.

(** The goroutine of [newListener] that runs [ln.server.Serve(udpConn)]:
    when [Serve] returns, the deferred [close(ln.serverClosed)] runs. *)
Definition serveReturn (s : State) : option State :=
  if serverClosedChan s then None
  else
    Some {| ctxDone := ctxDone s; lqueue := lqueue s; lsenders := lsenders s;
            waiting := waiting s; call := call s; pc := pc s;
            popped := popped s; workers := workers s; results := results s;
            rsenders := rsenders s; orphans := orphans s;
            closedSessions := closedSessions s; returns := returns s;
            serverClosedChan := true; serverShut := serverShut s;
            cpc := cpc s |}.

(** [func (l *listener) Close()], one statement at a time. *)
Definition CloseNext (s : State) : option State :=
  let upd (done shut : bool) (c : ClosePC) : State :=
    {| ctxDone := done; lqueue := lqueue s; lsenders := lsenders s;
       waiting := waiting s; call := call s; pc := pc s;
       popped := popped s; workers := workers s; results := results s;
       rsenders := rsenders s; orphans := orphans s;
       closedSessions := closedSessions s; returns := returns s;
       serverClosedChan := serverClosedChan s; serverShut := shut;
       cpc := c |} in
  match cpc s with
  | CloseNotCalled =>                    (* l.ctxCancel() *)
      Some (upd true (serverShut s) CloseAfterCancel)
  | CloseAfterCancel =>                  (* err := l.server.Close() *)
      Some (upd (ctxDone s) true (CloseWaiting (serverClose w)))
  | CloseWaiting err =>                  (* <-l.serverClosed ; return err *)
      if serverClosedChan s
      then Some (upd (ctxDone s) (serverShut s) (CloseReturned err))
      else None
  | CloseReturned _ => None
  end.

(** One move; [None] when the goroutine cannot move (it is parked, or does
    not exist). *)
Definition step (s : State) (e : event) : option State :=
  match e with
  | EvUpgrade c => upgradeHandler s c
  | EvSessionDone c => upgradeHandlerReturn s c
  | EvAcceptCall => AcceptEnter s
  | EvAccept k => AcceptNext s k
  | EvHandshake c => handshakeGoroutine s c
  | EvServeReturn => serveReturn s
  | EvCloseStep => CloseNext s
  end.

(** A schedule: the moves in the order they happen. *)
Fixpoint run (s : State) (es : list event) : option State :=
  match es with
  | [] => Some s
  | e :: es' =>
      match step s e with
      | Some s' => run s' es'
      | None => None
      end
  end.

(** The sessions upgraded along a schedule, in the order of arrival. *)
Fixpoint upgraded (es : list event) : list Session :=
  match es with
  | [] => []
  | EvUpgrade c :: es' => c :: upgraded es'
  | _ :: es' => upgraded es'
  end.

(** The raw sessions that have completed the transport handshake and not
    yet the identity handshake: queued, parked at the queue, or handed to
    a handshake goroutine that has not finished. *)
Definition pending (s : State) : list Session :=
  lqueue s ++ lsenders s ++ map snd (workers s).




(** The buffer of [l.queue] never exceeds its capacity, and a handler is
    parked only while the buffer is full. *)
Definition queue_inv (s : State) : Prop :=
  List.length (lqueue s) <= queueLen /\
  (lsenders s = [] \/ List.length (lqueue s) = queueLen).



End Listener.

(** [func (l *listener) Multiaddr()] reads the certificate manager through
    the pointer the listener holds; the managers live in a store that the
    rotation timer updates in place. *)
Record listener : Type := {
  l_addr : net.Addr;             (* addr *)
  l_multiaddr : ma.Multiaddr;    (* multiaddr *)
  l_certManager : nat            (* certManager, an address in the store *)
}.

Definition store := list certManager.

(** [None] is the nil dereference. *)
Definition Multiaddr (l : listener) (st : store) : option ma.Multiaddr :=
  match nth_error st (l_certManager l) with
  | Some m => Some (ma.Encapsulate (l_multiaddr l) (AddrComponent m))
  | None => None
  end.

(** The rotation timer replacing the manager at address [p] in place. *)
Fixpoint rotateAt (fresh : ma.Component) (p : nat) (st : store) : store :=
  match st, p with
  | [], _ => []
  | m :: st', O => rotate fresh m :: st'
  | m :: st', S p' => m :: rotateAt fresh p' st'
  end.

(** ** A reference implementation of the codecs

    The wire formats of the multiformats project: unsigned varints,
    multihash, and the multibase encodings base58btc and base64url,
    with go-multiaddr's transcoder of the certhash protocol on top.
    It is the instance at which the library contracts assumed below are
    shown to hold. *)

Module Ref.

Local Open Scope Z_scope.

Definition byteZ (b : byte) : Z := Z.of_N (Byte.to_N b).

Definition Zbyte (z : Z) : byte :=
  match Byte.of_N (Z.to_N z) with
  | Some b => b
  | None => x00
  end.

(** *** Unsigned varints: seven bits a byte, least significant first, the
    high bit set on all bytes but the last. *)

Fixpoint putUvarint_fuel (fuel : nat) (x : Z) : bytes :=
  match fuel with
  | O => []
  | S fuel' =>
      if x <? 128 then [Zbyte x]
      else Zbyte (x mod 128 + 128) :: putUvarint_fuel fuel' (x / 128)
  end.

Definition putUvarint (x : Z) : bytes :=
  putUvarint_fuel (S (Z.to_nat (Z.log2 x))) x.

(** [first] tells the first byte from the later ones, where a final zero
    byte is not minimal. *)
Fixpoint uvarint_from (first : bool) (buf : bytes) : result (Z * bytes) :=
  match buf with
  | [] => Err (errLib "varints malformed, could not reach the end")
  | b :: rest =>
      if byteZ b <? 128 then
        if (byteZ b =? 0) && negb first
        then Err (errLib "varint not minimally encoded")
        else Ok (byteZ b, rest)
      else
        match uvarint_from false rest with
        | Ok (v, rest') => Ok (byteZ b - 128 + 128 * v, rest')
        | Err e => Err e
        end
  end.

Definition uvarint (buf : bytes) : result (Z * bytes) := uvarint_from true buf.

(** *** multihash: varint code, varint length, digest. *)

Definition Codes (code : Z) : string :=
  if code =? multihash.SHA2_256 then "sha2-256"%string
  else if code =? multihash.KECCAK_224 then "keccak-224"%string
  else ""%string.

Definition mh_Encode (buf : bytes) (code : Z) : result bytes :=
  Ok (putUvarint code ++ putUvarint (Z.of_nat (List.length buf)) ++ buf).

Definition mh_Decode (buf : bytes) : result multihash.DecodedMultihash :=
  if (List.length buf <? 2)%nat then Err (errLib "multihash too short. must be >= 2 bytes")
  else
    match uvarint buf with
    | Err e => Err e
    | Ok (code, buf1) =>
        match uvarint buf1 with
        | Err e => Err e
        | Ok (len, buf2) =>
            if Z.of_nat (List.length buf2) <? len
            then Err (errLib "length greater than remaining number of bytes in buffer")
            else if len <? Z.of_nat (List.length buf2)
            then Err (errLib "multihash length inconsistent")
            else Ok {| multihash.Code := code; multihash.Name := Codes code;
                       multihash.Length := Z.of_nat (List.length buf2);
                       multihash.Digest := buf2 |}
        end
    end.

(** *** Positional notation: the digits of a number in a base, most
    significant first, none for zero. *)

Fixpoint to_digits_fuel (base : Z) (fuel : nat) (n : Z) (acc : list Z) : list Z :=
  match fuel with
  | O => acc
  | S fuel' =>
      if n <=? 0 then acc
      else to_digits_fuel base fuel' (n / base) (n mod base :: acc)
  end.

Definition to_digits (base n : Z) : list Z :=
  to_digits_fuel base (S (Z.to_nat (Z.log2 n))) n [].

Definition shift (base acc d : Z) : Z := acc * base + d.

Definition of_digits (base : Z) (ds : list Z) : Z :=
  fold_left (shift base) ds 0.

Definition digit (base d : Z) : Prop := 0 <= d < base.

Fixpoint leading_zeros (ds : list Z) : nat :=
  match ds with
  | d :: ds' => if d =? 0 then S (leading_zeros ds') else O
  | [] => O
  end.

(** The digits of one base rewritten in another; every leading zero
    digit stays a leading zero digit. *)
Definition rebase (from to : Z) (ds : list Z) : list Z :=
  repeat 0 (leading_zeros ds) ++ to_digits to (of_digits from ds).

(** *** Alphabets *)

Definition alphabet58 : list ascii :=
  list_ascii_of_string "123456789ABCDEFGHJKLMNPQRSTUVWXYZabcdefghijkmnopqrstuvwxyz".

Definition alphabet64url : list ascii :=
  list_ascii_of_string "ABCDEFGHIJKLMNOPQRSTUVWXYZabcdefghijklmnopqrstuvwxyz0123456789-_".

Fixpoint index_of (c : ascii) (alphabet : list ascii) : option Z :=
  match alphabet with
  | [] => None
  | a :: alphabet' =>
      if Ascii.eqb a c then Some 0
      else match index_of c alphabet' with
           | Some i => Some (i + 1)
           | None => None
           end
  end.

Definition symbol (alphabet : list ascii) (d : Z) : ascii :=
  nth (Z.to_nat d) alphabet "000"%char.

Fixpoint indices (alphabet : list ascii) (s : list ascii) : option (list Z) :=
  match s with
  | [] => Some []
  | c :: s' =>
      match index_of c alphabet, indices alphabet s' with
      | Some i, Some r => Some (i :: r)
      | _, _ => None
      end
  end.

(** *** base58btc *)

Definition base58_encode (b : bytes) : list ascii :=
  map (symbol alphabet58) (rebase 256 58 (map byteZ b)).

Definition base58_decode (s : list ascii) : result bytes :=
  match indices alphabet58 s with
  | None => Err (errLib "invalid base58 digit")
  | Some ds => Ok (map Zbyte (rebase 58 256 ds))
  end.

(** *** base64url without padding: three bytes are four symbols; one or
    two bytes left over are two or three symbols. *)

Fixpoint base64_groups (b : list Z) : list Z :=
  match b with
  | x :: y :: z :: rest =>
      x / 4 :: (x mod 4) * 16 + y / 16 :: (y mod 16) * 4 + z / 64 :: z mod 64
        :: base64_groups rest
  | [x; y] => [x / 4; (x mod 4) * 16 + y / 16; (y mod 16) * 4]
  | [x] => [x / 4; (x mod 4) * 16]
  | [] => []
  end.

Fixpoint base64_ungroups (d : list Z) : option (list Z) :=
  match d with
  | p :: q :: r :: s :: rest =>
      match base64_ungroups rest with
      | Some b => Some (p * 4 + q / 16 :: (q mod 16) * 16 + r / 4 :: (r mod 4) * 64 + s :: b)
      | None => None
      end
  | [p; q; r] => Some [p * 4 + q / 16; (q mod 16) * 16 + r / 4]
  | [p; q] => Some [p * 4 + q / 16]
  | [_] => None
  | [] => Some []
  end.

Definition base64url_encode (b : bytes) : list ascii :=
  map (symbol alphabet64url) (base64_groups (map byteZ b)).

Definition base64url_decode (s : list ascii) : result bytes :=
  match indices alphabet64url s with
  | None => Err (errLib "illegal base64 data")
  | Some ds =>
      match base64_ungroups ds with
      | None => Err (errLib "illegal base64 data")
      | Some b => Ok (map Zbyte b)
      end
  end.

(** *** multibase: the prefix character names the encoding. *)

Definition mb_Encode (e : Encoding) (b : bytes) : result string :=
  if Ascii.eqb e multibase.Base58BTC
  then Ok (String e (string_of_list_ascii (base58_encode b)))
  else if Ascii.eqb e multibase.Base64url
  then Ok (String e (string_of_list_ascii (base64url_encode b)))
  else Err (errLib "selected encoding not supported").

Definition mb_Decode (s : string) : result (Encoding * bytes) :=
  match s with
  | EmptyString => Err (errLib "cannot decode multibase for zero length string")
  | String e data =>
      if Ascii.eqb e multibase.Base58BTC
      then match base58_decode (list_ascii_of_string data) with
           | Ok b => Ok (e, b)
           | Err err => Err err
           end
      else if Ascii.eqb e multibase.Base64url
      then match base64url_decode (list_ascii_of_string data) with
           | Ok b => Ok (e, b)
           | Err err => Err err
           end
      else Err (errLib "selected encoding not supported")
  end.

(** *** go-multiaddr: [NewComponent] for the certhash protocol.  The
    transcoder checks that the text is a multibase string holding a
    multihash, keeps the bytes, and renders them in base64url. *)

Definition certHashStB (s : string) : result bytes :=
  match mb_Decode s with
  | Err err => Err err
  | Ok (_, data) =>
      match mh_Decode data with
      | Err err => Err err
      | Ok _ => Ok data
      end
  end.

Definition certHashBtS (b : bytes) : result string :=
  mb_Encode multibase.Base64url b.

Definition NewComponent (protocol value : string) : result ma.Multiaddr :=
  if String.eqb protocol "certhash" then
    match certHashStB value with
    | Err err => Err err
    | Ok data =>
        match certHashBtS data with
        | Err err => Err err
        | Ok text => Ok [{| ma.Proto := ma.protoCERTHASH; ma.Value := text |}]
        end
    end
  else if String.eqb protocol "quic" then
    if String.eqb value "" then Ok [ma.marker ma.protoQUIC]
    else Err (errLib "protocol quic doesn't take a value")
  else if String.eqb protocol "webtransport" then
    if String.eqb value "" then Ok [ma.marker ma.protoWEBTRANSPORT]
    else Err (errLib "protocol webtransport doesn't take a value")
  else Err (errLib "protocol outside the reference implementation").

End Ref.

#[export] Instance RefMultiformats : Multiformats := {|
  multibase_Encode := Ref.mb_Encode;
  multibase_Decode := Ref.mb_Decode;
  multihash_Encode := Ref.mh_Encode;
  multihash_Decode := Ref.mh_Decode;
  ma_NewComponent := Ref.NewComponent
|}.

(** ** The helpers of transport_test.go *)

Module transport_test.

(** [func extractCertHashes(addr ma.Multiaddr) []string] *)
Definition extractCertHashes (addr : ma.Multiaddr) : list string :=
  ma.ForEach addr
    (fun c certHashesStr =>
       if (ma.Code (ma.Proto c) =? ma.P_CERTHASH)%Z
       then (true, certHashesStr ++ [ma.Value c])
       else (true, certHashesStr))
    [].

(** How a call that can panic ends. *)
Inductive outcome : Type :=
| Returned (addr : ma.Multiaddr)
| Panicked.

(** The loop of [stripCertHashes], [fuel] iterations at most ([None] when
    they do not suffice).  When nothing is left in front of the last
    component, [ma.SplitLast] hands back a nil [Multiaddr], and the next
    [addr.ValueForProtocol] is a method call on nil. *)
Fixpoint stripCertHashes_loop (fuel : nat) (addr : ma.Multiaddr)
  : option outcome :=
  match fuel with
  | O => None
  | S fuel' =>
      match ma.ValueForProtocol addr ma.P_CERTHASH with
      | Err _ => Some (Returned addr)
      | Ok _ =>
          let '(rest, _) := ma.SplitLast addr in
          match rest with
          | [] => Some Panicked
          | _ :: _ => stripCertHashes_loop fuel' rest
          end
      end
  end.

(** [func stripCertHashes(addr ma.Multiaddr) ma.Multiaddr] *)
Definition stripCertHashes (addr : ma.Multiaddr) : option outcome :=
  stripCertHashes_loop (S (List.length addr)) addr.

End transport_test.

(** The components of an address in front of its first certhash
    component. *)
Fixpoint beforeCertHash (a : ma.Multiaddr) : ma.Multiaddr :=
  match a with
  | [] => []
  | c :: a' => if isCertHash c then [] else c :: beforeCertHash a'
  end.

(** ** Vocabulary for the statements about the listener *)



(** Nothing is queued, parked, in handshake or waiting to be returned. *)
Definition drained (s : State) : Prop :=
  lqueue s = [] /\ lsenders s = [] /\ workers s = [] /\
  results s = [] /\ rsenders s = [].

(** The returns are all [errClosed]. *)
Definition allClosed (rs : list (nat * result CapableConn)) : Prop :=
  Forall (fun kr => snd kr = Err errClosed) rs.

(** The moves of the caller of [Accept] alone. *)
Definition isAcceptMove (e : event) : bool :=
  match e with
  | EvAcceptCall | EvAccept _ => true
  | _ => false
  end.

(** Two sessions are received by one call of [Accept]; the call returns
    the connection of the first while the handshake of the second is
    still running. *)
Definition returnsBeforeSecondHandshake (c1 c2 : Session) : list event :=
  [EvUpgrade c1; EvUpgrade c2; EvAcceptCall; EvAccept PickDone;
   EvAccept PickQueue; EvAccept PickDone; EvAccept PickQueue;
   EvAccept PickDone; EvHandshake c1; EvAccept PickResult; EvHandshake c2].

(** ** Vocabulary for the statements about listen addresses *)

(** The value of a decimal digit. *)
Definition digitValue (c : ascii) : option N :=
  let n := N_of_ascii c in
  if ((48 <=? n) && (n <=? 57))%N then Some (n - 48)%N else None.

(** The number a string of decimal digits denotes, most significant
    digit first, continuing from the number [acc] of the digits read so
    far. *)
Fixpoint decimalValue (s : string) (acc : N) : option N :=
  match s with
  | EmptyString => Some acc
  | String c s' =>
      match digitValue c with
      | Some d => decimalValue s' (10 * acc + d)%N
      | None => None
      end
  end.

(** [s] is the decimal numeral of [n]: digits only, one at least, and no
    zero in front of another digit. *)
Definition isDecimal (s : string) (n : N) : bool :=
  match s with
  | EmptyString => false
  | String "0" (String _ _) => false
  | _ =>
      match decimalValue s 0 with
      | Some m => (m =? n)%N
      | None => false
      end
  end.

Section ListenAddressSpec.

Variable IP_String : net.IP -> string.

(** The components that name the host in the address of a socket: ip4
    for an IPv4 address, whatever the zone; ip6 for an IPv6 address of
    sixteen bytes, behind an ip6zone component when the socket has a zone.
    A zone with a slash, and an IP of any other length, the nil IP among
    them, have none. *)
Inductive hostComponents : net.IP -> string -> ma.Multiaddr -> Prop :=
| host_ip4 (a b c d : byte) (zone : string) :
    hostComponents (net.IPv4 a b c d) zone
      [{| ma.Proto := ma.protoIP4; ma.Value := IP_String (net.IPv4 a b c d) |}]
| host_ip6 (raw : bytes) :
    List.length raw = 16%nat ->
    hostComponents (net.IPv6 raw) ""
      [{| ma.Proto := ma.protoIP6; ma.Value := IP_String (net.IPv6 raw) |}]
| host_ip6zone (raw : bytes) (zone : string) :
    List.length raw = 16%nat ->
    zone <> ""%string ->
    ~ In "/"%char (list_ascii_of_string zone) ->
    hostComponents (net.IPv6 raw) zone
      [{| ma.Proto := ma.protoIP6ZONE; ma.Value := zone |};
       {| ma.Proto := ma.protoIP6; ma.Value := IP_String (net.IPv6 raw) |}].

End ListenAddressSpec.

(** The names of the networks that go-multiaddr/net converts. *)
Definition convertedNetworks : list string :=
  ["tcp"; "tcp4"; "tcp6"; "udp"; "udp4"; "udp6"; "ip"; "ip4"; "ip6";
   "ip+net"; "unix"]%string.

(** ** Concrete inputs *)

(** A world where every session opens its stream and passes the identity
    handshake, while the resource manager refuses every connection and
    the gater rejects every peer. *)
Definition denyingWorld : World := {|
  AcceptStream := fun c => Ok c;
  SecureInbound := fun c _ => Ok {| LocalPrivateKey := 0; RemotePublicKey := c |};
  newConn := fun c priv pub =>
    Ok {| connSession := c; connLocalKey := priv; connRemoteKey := pub |};
  serverClose := None;
  OpenConnection := fun _ _ _ => Some (errLib "denied");
  InterceptSecured := fun _ _ _ => false
|}.

(** A world where every handshake succeeds and the policies allow
    everything. *)
Definition openWorld : World := {|
  AcceptStream := fun c => Ok c;
  SecureInbound := fun c _ => Ok {| LocalPrivateKey := 0; RemotePublicKey := c |};
  newConn := fun c priv pub =>
    Ok {| connSession := c; connLocalKey := priv; connRemoteKey := pub |};
  serverClose := None;
  OpenConnection := fun _ _ _ => None;
  InterceptSecured := fun _ _ _ => true
|}.

(** A world where the first stream of session 1 never arrives before the
    handshake deadline, and every other handshake succeeds. *)
Definition stalledWorld : World := {|
  AcceptStream := fun c =>
    if (c =? 1)%nat then Err (errLib "context deadline exceeded") else Ok c;
  SecureInbound := fun c _ => Ok {| LocalPrivateKey := 0; RemotePublicKey := c |};
  newConn := fun c priv pub =>
    Ok {| connSession := c; connLocalKey := priv; connRemoteKey := pub |};
  serverClose := Some (errLib "server closed with error");
  OpenConnection := fun _ _ _ => None;
  InterceptSecured := fun _ _ _ => true
|}.

(** The address [/ip4/127.0.0.1/udp/1234/quic/webtransport]. *)
Definition localhost1234 : ma.Multiaddr :=
  [manet.comp ma.protoIP4 "127.0.0.1"; manet.comp ma.protoUDP "1234";
   ma.marker ma.protoQUIC; ma.marker ma.protoWEBTRANSPORT].

(** The IPv6 address [fe80::1]. *)
Definition linkLocal1 : net.IP :=
  net.IPv6 [xfe; x80; x00; x00; x00; x00; x00; x00;
            x00; x00; x00; x00; x00; x00; x00; x01].

(** The SHA2-256 digest of the text "multihash", the example of the
    multihash specification. *)
Definition digest_multihash : bytes :=
  [x9c; xbc; x07; xc3; xf9; x91; x72; x58; x36; xa3; xaa; x2a; x58; x1c; xa2; x02;
   x91; x98; xaa; x42; x0b; x9d; x99; xbc; x0e; x13; x1d; x9f; x3e; x2c; xbe; x47].

(** * Properties *)

(** ** The address predicates *)

Lemma webtransportMatcher_Matches (a : ma.Multiaddr) :
  mafmt.Matches webtransportMatcher a = true <->
  exists c1 c2 c3 c4,
    a = [c1; c2; c3; c4] /\
    (ma.Code (ma.Proto c1) = ma.P_IP4 \/ ma.Code (ma.Proto c1) = ma.P_IP6) /\
    ma.Code (ma.Proto c2) = ma.P_UDP /\
    ma.Code (ma.Proto c3) = ma.P_QUIC /\
    ma.Code (ma.Proto c4) = ma.P_WEBTRANSPORT.
Proof.
  unfold mafmt.Matches, webtransportMatcher, mafmt.IP, ma.Protocols.
  split.
  - destruct a as [|c1 [|c2 [|c3 [|c4 [|c5 a]]]]]; cbn;
      repeat match goal with
             | |- context [(?x =? ?y)%Z] => destruct (Z.eqb_spec x y)
             end; cbn; try discriminate.
    all: intros _; exists c1, c2, c3, c4; auto.
  - intros (c1 & c2 & c3 & c4 & -> & H1 & H2 & H3 & H4).
    destruct H1 as [H1 | H1]; cbn; rewrite H1; cbn; rewrite H2; cbn;
      rewrite H3; cbn; rewrite H4; reflexivity.
Qed.

Lemma dropCertHashes_app (hs r : list ma.Component) :
  Forall (fun c => isCertHash c = true) hs ->
  dropCertHashes (hs ++ r) = dropCertHashes r.
Proof.
  induction 1 as [|c hs Hc _ IH]; cbn; [reflexivity|].
  now rewrite Hc.
Qed.

Lemma withoutTrailingCertHashes_app (a hs : ma.Multiaddr) :
  Forall (fun c => isCertHash c = true) hs ->
  withoutTrailingCertHashes (a ++ hs) = withoutTrailingCertHashes a.
Proof.
  intros H. unfold withoutTrailingCertHashes.
  rewrite rev_app_distr, dropCertHashes_app; [reflexivity|].
  now apply Forall_rev.
Qed.

Lemma withoutTrailingCertHashes_last (a : ma.Multiaddr) (c : ma.Component) :
  isCertHash c = false ->
  withoutTrailingCertHashes (a ++ [c]) = a ++ [c].
Proof.
  intros H. unfold withoutTrailingCertHashes.
  rewrite rev_app_distr. cbn. rewrite H. cbn. now rewrite rev_involutive.
Qed.

(** What is stripped is a suffix. *)
Lemma withoutTrailingCertHashes_prefix (a : ma.Multiaddr) :
  exists hs, a = withoutTrailingCertHashes a ++ hs.
Proof.
  unfold withoutTrailingCertHashes.
  assert (H : forall r, exists hs, r = hs ++ dropCertHashes r).
  { induction r as [|c r [hs IH]]; cbn.
    - now exists [].
    - destruct (isCertHash c).
      + exists (c :: hs). cbn. now f_equal.
      + now exists []. }
  destruct (H (rev a)) as [hs Hhs].
  exists (rev hs).
  rewrite <- rev_app_distr, <- Hhs. now rewrite rev_involutive.
Qed.

Lemma Matches_has_udp_quic (a : ma.Multiaddr) :
  mafmt.Matches webtransportMatcher a = true ->
  exists c1 c2 c3 c4,
    a = [c1; c2; c3; c4] /\
    ma.Code (ma.Proto c2) = ma.P_UDP /\ ma.Code (ma.Proto c3) = ma.P_QUIC /\
    Forall (fun c => isCertHash c = false) a.
Proof.
  intros H. apply webtransportMatcher_Matches in H.
  destruct H as (c1 & c2 & c3 & c4 & -> & H1 & H2 & H3 & H4).
  exists c1, c2, c3, c4. repeat split; auto.
  unfold isCertHash, ma.hasCode.
  repeat constructor; [destruct H1 as [-> | ->]| rewrite H2 | rewrite H3 | rewrite H4];
    reflexivity.
Qed.

(** C4.  Dialability and listen-validity depend on the sequence of
    protocols alone.  An address made of an ip4 or ip6 component, a udp
    component, the quic and the webtransport marker, followed by any number
    of certhash components, is dialable.  An address with no udp component,
    or with no quic component, or with tcp where udp belongs, is neither
    dialable nor listenable.  An address with a certhash component is not
    listenable. *)
Theorem dialable_listenable_structural :
  (forall c1 c2 c3 c4 hashes,
      ma.Code (ma.Proto c1) = ma.P_IP4 \/ ma.Code (ma.Proto c1) = ma.P_IP6 ->
      ma.Code (ma.Proto c2) = ma.P_UDP ->
      ma.Code (ma.Proto c3) = ma.P_QUIC ->
      ma.Code (ma.Proto c4) = ma.P_WEBTRANSPORT ->
      Forall (fun c => isCertHash c = true) hashes ->
      isDialable ([c1; c2; c3; c4] ++ hashes) = true) /\
  (forall a,
      (forall c, In c a -> ma.Code (ma.Proto c) <> ma.P_UDP) ->
      isDialable a = false /\ isListenable a = false) /\
  (forall a,
      (forall c, In c a -> ma.Code (ma.Proto c) <> ma.P_QUIC) ->
      isDialable a = false /\ isListenable a = false) /\
  (forall c1 c2 rest,
      ma.Code (ma.Proto c2) = ma.P_TCP ->
      isDialable (c1 :: c2 :: rest) = false /\
      isListenable (c1 :: c2 :: rest) = false) /\
  (forall a,
      (exists c, In c a /\ ma.Code (ma.Proto c) = ma.P_CERTHASH) ->
      isListenable a = false).
Proof.
  unfold isDialable, isListenable.
  repeat split.
  - intros c1 c2 c3 c4 hashes H1 H2 H3 H4 Hh.
    rewrite withoutTrailingCertHashes_app by assumption.
    change [c1; c2; c3; c4] with ([c1; c2; c3] ++ [c4]).
    rewrite withoutTrailingCertHashes_last.
    + apply webtransportMatcher_Matches. exists c1, c2, c3, c4. auto.
    + unfold isCertHash, ma.hasCode. now rewrite H4.
  - apply not_true_is_false. intros M.
    destruct (Matches_has_udp_quic _ M) as (c1 & c2 & c3 & c4 & E & U & _).
    destruct (withoutTrailingCertHashes_prefix a) as [hs Ha].
    apply (H c2); [|exact U].
    rewrite Ha, E. cbn. auto.
  - apply not_true_is_false. intros M.
    destruct (Matches_has_udp_quic _ M) as (c1 & c2 & c3 & c4 & E & U & _).
    apply (H c2); [|exact U]. rewrite E. cbn. auto.
  - apply not_true_is_false. intros M.
    destruct (Matches_has_udp_quic _ M) as (c1 & c2 & c3 & c4 & E & _ & Q & _).
    destruct (withoutTrailingCertHashes_prefix a) as [hs Ha].
    apply (H c3); [|exact Q].
    rewrite Ha, E. cbn. auto.
  - apply not_true_is_false. intros M.
    destruct (Matches_has_udp_quic _ M) as (c1 & c2 & c3 & c4 & E & _ & Q & _).
    apply (H c3); [|exact Q]. rewrite E. cbn. auto.
  - apply not_true_is_false. intros M.
    destruct (Matches_has_udp_quic _ M) as (d1 & d2 & d3 & d4 & E & U & _).
    destruct (withoutTrailingCertHashes_prefix (c1 :: c2 :: rest)) as [hs Ha].
    rewrite E in Ha. cbn in Ha. injection Ha as _ E2 _.
    rewrite <- E2, H in U. discriminate.
  - apply not_true_is_false. intros M.
    destruct (Matches_has_udp_quic _ M) as (d1 & d2 & d3 & d4 & E & U & _).
    injection E as _ E2 _. rewrite <- E2, H in U. discriminate.
  - intros a (c & Hin & Hc).
    apply not_true_is_false. intros M.
    destruct (Matches_has_udp_quic _ M) as (_ & _ & _ & _ & _ & _ & _ & F).
    rewrite Forall_forall in F. specialize (F c Hin).
    unfold isCertHash, ma.hasCode in F. rewrite Hc in F. discriminate.
Qed.

Lemma dialable_listenable_structural_witness :
  isDialable (localhost1234 ++
              [manet.comp ma.protoCERTHASH "uEiCcvAfD-ZFyWDajqipYHKICkZiqQgudmbwOEx2fPiy-Rw"])
  = true /\
  isDialable [manet.comp ma.protoIP4 "127.0.0.1"; ma.marker ma.protoQUIC;
              ma.marker ma.protoWEBTRANSPORT] = false /\
  isListenable [manet.comp ma.protoIP4 "127.0.0.1"; manet.comp ma.protoUDP "1234";
                ma.marker ma.protoWEBTRANSPORT] = false /\
  isDialable [manet.comp ma.protoIP4 "127.0.0.1"; manet.comp ma.protoTCP "1234";
              ma.marker ma.protoWEBTRANSPORT] = false /\
  isListenable (localhost1234 ++ [manet.comp ma.protoCERTHASH "z"]) = false.
Proof.
  destruct dialable_listenable_structural as (A & B & C & D & E).
  split; [|split; [|split; [|split]]].
  - apply A; try reflexivity.
    + left; reflexivity.
    + repeat constructor.
  - apply B. intros c [<-|[<-|[<-|[]]]]; discriminate.
  - apply C. intros c [<-|[<-|[<-|[]]]]; discriminate.
  - apply D. reflexivity.
  - apply E. eexists. split; [do 4 right; left; reflexivity | reflexivity].
Defined.

(** The addresses of [TestCanDial] and [TestListenAddrValidity]. *)
Example TestCanDial_valid :
  isDialable localhost1234 = true /\
  isDialable (localhost1234 ++
              [manet.comp ma.protoCERTHASH "a"; manet.comp ma.protoCERTHASH "b";
               manet.comp ma.protoCERTHASH "c"]) = true /\
  isDialable [manet.comp ma.protoIP6 "b16b:8255:efc6:9cd5:1a54:ee86:2d7a:c2e6";
              manet.comp ma.protoUDP "1234"; ma.marker ma.protoQUIC;
              ma.marker ma.protoWEBTRANSPORT; manet.comp ma.protoCERTHASH "a"] = true.
Proof. repeat split. Qed.

Example TestCanDial_invalid :
  isDialable [manet.comp ma.protoIP4 "127.0.0.1"; manet.comp ma.protoUDP "1234"] = false /\
  isDialable [manet.comp ma.protoIP4 "127.0.0.1"; manet.comp ma.protoUDP "1234";
              ma.marker ma.protoWEBTRANSPORT] = false /\
  isDialable [manet.comp ma.protoIP4 "127.0.0.1"; manet.comp ma.protoTCP "1234";
              ma.marker ma.protoWEBTRANSPORT] = false.
Proof. repeat split. Qed.

Example TestListenAddrValidity_cases :
  isListenable localhost1234 = true /\
  isListenable [manet.comp ma.protoIP6 "::"; manet.comp ma.protoUDP "0";
                ma.marker ma.protoQUIC; ma.marker ma.protoWEBTRANSPORT] = true /\
  isListenable (localhost1234 ++ [manet.comp ma.protoCERTHASH "a"]) = false.
Proof. repeat split. Qed.

(** ** The listen address of a bound socket *)

Lemma ValueForProtocol_none (m : ma.Multiaddr) (code : Z) :
  existsb (ma.hasCode code) m = false ->
  exists e, ma.ValueForProtocol m code = Err e.
Proof.
  induction m as [|c m IH]; cbn.
  - eauto.
  - unfold ma.hasCode at 1. destruct (ma.Code (ma.Proto c) =? code)%Z; cbn.
    + discriminate.
    + exact IH.
Qed.

Lemma ValueForProtocol_app_found (m : ma.Multiaddr) (c : ma.Component) (m' : ma.Multiaddr) :
  existsb (ma.hasCode (ma.Code (ma.Proto c))) m = false ->
  ma.ValueForProtocol (m ++ c :: m') (ma.Code (ma.Proto c)) = Ok (ma.Value c).
Proof.
  induction m as [|d m IH]; cbn.
  - now rewrite Z.eqb_refl.
  - unfold ma.hasCode at 1.
    destruct (ma.Code (ma.Proto d) =? ma.Code (ma.Proto c))%Z; cbn.
    + discriminate.
    + exact IH.
Qed.

(** Reading the numeral that [itoa] writes gives the number back. *)
Ltac digit_value :=
  match goal with
  | |- context [digitValue ?c] =>
      let v := eval vm_compute in (digitValue c) in
      change (digitValue c) with v
  end.

Lemma decimalValue_of_uint_acc (d : Decimal.uint) (acc : positive) :
  decimalValue (DecimalString.NilEmpty.string_of_uint d) (N.pos acc)
  = Some (N.pos (Pos.of_uint_acc d acc)).
Proof.
  revert acc.
  induction d as [|d IH|d IH|d IH|d IH|d IH|d IH|d IH|d IH|d IH|d IH];
    intros acc;
    cbn [DecimalString.NilEmpty.string_of_uint decimalValue Pos.of_uint_acc];
    [reflexivity|..]; digit_value; cbv iota; rewrite <- IH; f_equal; lia.
Qed.

Lemma decimalValue_of_uint (d : Decimal.uint) :
  decimalValue (DecimalString.NilEmpty.string_of_uint d) 0 = Some (N.of_uint d).
Proof.
  unfold N.of_uint.
  induction d as [|d IH|d IH|d IH|d IH|d IH|d IH|d IH|d IH|d IH|d IH];
    cbn [DecimalString.NilEmpty.string_of_uint decimalValue Pos.of_uint];
    [reflexivity|..]; digit_value; cbv iota; [exact IH|..];
    rewrite <- decimalValue_of_uint_acc; reflexivity.
Qed.

Lemma isDecimal_itoa (n : N) : isDecimal (manet.itoa n) n = true.
Proof.
  unfold manet.itoa.
  assert (V : decimalValue
                (DecimalString.NilEmpty.string_of_uint (N.to_uint n)) 0 = Some n)
    by now rewrite decimalValue_of_uint, DecimalN.Unsigned.of_to.
  assert (U : Decimal.unorm (N.to_uint n) = N.to_uint n)
    by now rewrite <- DecimalN.Unsigned.to_of, DecimalN.Unsigned.of_to.
  unfold isDecimal.
  destruct (N.to_uint n) as [|d| | | | | | | | |] eqn:E;
    cbn [DecimalString.NilEmpty.string_of_uint] in *;
    try (cbv iota; rewrite V, N.eqb_refl; reflexivity).
  - discriminate U.
  - unfold Decimal.unorm in U. cbn [Decimal.nzhead] in U.
    destruct (Decimal.nzhead d) eqn:Ed; try discriminate U.
    + injection U as <-. cbn in *. injection V as <-. reflexivity.
    + exfalso. now apply (DecimalFacts.nzhead_nonzero d u).
Qed.

Lemma contains_In (c : ascii) (s : string) :
  manet.contains c s = true <-> In c (list_ascii_of_string s).
Proof.
  unfold manet.contains. rewrite existsb_exists. split.
  - intros (x & Hx & E). apply Ascii.eqb_eq in E. now subst.
  - intros H. exists c. split; [exact H|apply Ascii.eqb_refl].
Qed.

(** What [FromIPAndZone] returns, case by case. *)
Lemma FromIPAndZone_Ok IP_String ip zone m :
  manet.FromIPAndZone IP_String ip zone = Ok m <-> hostComponents IP_String ip zone m.
Proof.
  unfold manet.FromIPAndZone, manet.ip6zoneComponent. split.
  - destruct ip as [a b c d|raw]; cbn.
    + intros [= <-]. constructor.
    + destruct (Nat.eqb_spec (List.length raw) 16) as [Hlen|]; [|discriminate].
      destruct (String.eqb_spec zone "") as [->|Hz].
      * intros [= <-]. now constructor.
      * destruct (manet.contains "/" zone) eqn:Hc; [discriminate|].
        intros [= <-]. constructor; auto.
        rewrite <- contains_In, Hc. discriminate.
  - intros H. destruct H as [a b c d zone|raw Hlen|raw zone Hlen Hz Hc]; cbn.
    + reflexivity.
    + now rewrite Hlen.
    + rewrite Hlen. cbn.
      destruct (String.eqb_spec zone "") as [->|_]; [contradiction|].
      destruct (manet.contains "/" zone) eqn:E; [|reflexivity].
      apply contains_In in E. contradiction.
Qed.

Lemma hostComponents_codes IP_String ip zone m code :
  hostComponents IP_String ip zone m ->
  code <> ma.P_IP4 -> code <> ma.P_IP6 -> code <> ma.P_IP6ZONE ->
  existsb (ma.hasCode code) m = false.
Proof.
  intros H H4 H6 Hz. unfold ma.hasCode.
  destruct H; cbn -[Z.eqb]; unfold ma.P_IP4, ma.P_IP6, ma.P_IP6ZONE in *;
    repeat match goal with
           | |- context [(?x =? code)%Z] =>
               destruct (Z.eqb_spec x code); [lia|]
           end; reflexivity.
Qed.

Lemma FromIPAndZone_no_udp IP_String ip zone m code :
  manet.FromIPAndZone IP_String ip zone = Ok m ->
  code = ma.P_UDP \/ code = ma.P_CERTHASH ->
  existsb (ma.hasCode code) m = false.
Proof.
  intros H Hc. apply FromIPAndZone_Ok in H.
  apply (hostComponents_codes _ _ _ _ _ H); destruct Hc as [-> | ->]; discriminate.
Qed.

(** The addresses [FromNetAddr] returns for an endpoint that is not a
    UDP endpoint have no udp component, and none has a certhash
    component. *)
Lemma FromNetAddr_codes IP_String na m :
  manet.FromNetAddr IP_String na = Ok m ->
  existsb (ma.hasCode ma.P_CERTHASH) m = false /\
  (net.isUDP na = false -> existsb (ma.hasCode ma.P_UDP) m = false).
Proof.
  unfold manet.FromNetAddr.
  destruct (manet.getAddrParser IP_String (net.Network na)) as [p|] eqn:Ep;
    [|discriminate].
  unfold manet.getAddrParser in Ep.
  destruct (find _ _) as [[n q]|] eqn:Ef; [|discriminate].
  injection Ep as ->.
  apply find_some in Ef. destruct Ef as [Hin _].
  assert (Hp : p = manet.parseTCPNetAddr IP_String \/
               p = manet.parseUDPNetAddr IP_String \/
               p = manet.parseIPNetAddr IP_String \/
               p = manet.parseIPPlusNetAddr IP_String \/
               p = manet.parseUnixNetAddr).
  { cbn in Hin.
    repeat (destruct Hin as [[= _ <-]|Hin]; [tauto|]). contradiction. }
  clear Hin.
  destruct Hp as [->|[->|[->|[->| ->]]]]; destruct na; cbn; try discriminate.
  all: unfold manet.FromIP, manet.portMultiaddr.
  all: try (destruct (manet.FromIPAndZone IP_String ip _) as [ipm|] eqn:E;
            [|discriminate]).
  all: try (destruct (65536 <=? port)%N; [discriminate|]).
  all: intros [= <-]; unfold ma.Encapsulate; rewrite ?existsb_app.
  all: try rewrite (FromIPAndZone_no_udp _ _ _ _ ma.P_CERTHASH E) by auto.
  all: try rewrite (FromIPAndZone_no_udp _ _ _ _ ma.P_UDP E) by auto.
  all: split; [reflexivity|]; try reflexivity; try discriminate.
Qed.

Lemma getAddrParser_unknown IP_String (network : string) :
  ~ In network convertedNetworks ->
  manet.getAddrParser IP_String network
  = Err (errLib ("unknown network " ++ network)).
Proof.
  intros H. unfold manet.getAddrParser, manet.addrParsers. cbn [find fst].
  repeat match goal with
         | |- context [String.eqb ?n network] =>
             destruct (String.eqb_spec n network) as [<-|_];
             [exfalso; apply H; cbn; tauto|]
         end.
  reflexivity.
Qed.

(** The address built for a UDP endpoint, taken apart. *)
Lemma toWebtransportMultiaddr_UDPAddr IP_String ip port zone a :
  toWebtransportMultiaddr IP_String (net.UDPAddr ip port zone) = Ok a <->
  exists host,
    hostComponents IP_String ip zone host /\ (port < 65536)%N /\
    a = host ++ [manet.comp ma.protoUDP (manet.itoa port);
                 ma.marker ma.protoQUIC; ma.marker ma.protoWEBTRANSPORT].
Proof.
  unfold toWebtransportMultiaddr. cbn. unfold manet.portMultiaddr. split.
  - destruct (manet.FromIPAndZone IP_String ip zone) as [host|] eqn:E;
      [|discriminate].
    destruct (N.leb_spec 65536 port); [discriminate|].
    destruct (ma.ValueForProtocol _ _); [|discriminate].
    intros [= <-]. exists host. apply FromIPAndZone_Ok in E.
    unfold ma.Encapsulate, webtransportMA. rewrite <- app_assoc. auto.
  - intros (host & Hh & Hp & ->).
    pose proof (hostComponents_codes _ _ _ _ ma.P_UDP Hh) as Hu.
    apply FromIPAndZone_Ok in Hh. rewrite Hh.
    destruct (N.leb_spec 65536 port); [lia|].
    unfold ma.Encapsulate.
    change ma.P_UDP
      with (ma.Code (ma.Proto (manet.comp ma.protoUDP (manet.itoa port)))) at 1.
    rewrite ValueForProtocol_app_found by (apply Hu; discriminate).
    unfold webtransportMA. now rewrite <- app_assoc.
Qed.

Lemma toWebtransportMultiaddr_not_UDP IP_String na m :
  manet.FromNetAddr IP_String na = Ok m ->
  net.isUDP na = false ->
  toWebtransportMultiaddr IP_String na = Err errNotUDP.
Proof.
  intros E Hna. unfold toWebtransportMultiaddr. rewrite E.
  destruct (FromNetAddr_codes _ _ _ E) as [_ Hu].
  destruct (ValueForProtocol_none m ma.P_UDP (Hu Hna)) as [e He].
  now rewrite He.
Qed.

(** C9.  A UDP endpoint whose IP address is well formed and whose port
    is below 65536 becomes the components of its host, the udp component
    of its port in decimal, and the quic and webtransport markers, with no
    certhash component.  A UDP endpoint with an IP address that is nil or
    of a wrong length, with a slash in its zone, or with a port of 65536 or
    more is refused as an incorrect address, and every endpoint that is not
    a UDP endpoint is refused. *)
Theorem toWebtransportMultiaddr_wellformed_udp_only (IP_String : net.IP -> string) :
  (forall ip port zone host,
      hostComponents IP_String ip zone host ->
      (port < 65536)%N ->
      exists v,
        let a := host ++ [{| ma.Proto := ma.protoUDP; ma.Value := v |};
                          {| ma.Proto := ma.protoQUIC; ma.Value := "" |};
                          {| ma.Proto := ma.protoWEBTRANSPORT; ma.Value := "" |}] in
        isDecimal v port = true /\
        toWebtransportMultiaddr IP_String (net.UDPAddr ip port zone) = Ok a /\
        existsb isCertHash a = false) /\
  (forall ip port zone,
      (forall host, ~ hostComponents IP_String ip zone host) \/ (65536 <= port)%N ->
      toWebtransportMultiaddr IP_String (net.UDPAddr ip port zone)
      = Err (errLib "incorrect network addr conversion")) /\
  (forall na,
      net.isUDP na = false ->
      exists e, toWebtransportMultiaddr IP_String na = Err e).
Proof.
  split; [|split].
  - intros ip port zone host Hh Hp. exists (manet.itoa port). cbv zeta.
    split; [apply isDecimal_itoa|]. split.
    + apply toWebtransportMultiaddr_UDPAddr. now exists host.
    + assert (Hc : existsb isCertHash host = false)
        by (apply (hostComponents_codes _ _ _ _ ma.P_CERTHASH Hh); discriminate).
      rewrite existsb_app, Hc. reflexivity.
  - intros ip port zone H. unfold toWebtransportMultiaddr. cbn.
    unfold manet.portMultiaddr.
    destruct (manet.FromIPAndZone IP_String ip zone) as [host|] eqn:E;
      [|reflexivity].
    destruct H as [H|H].
    + apply FromIPAndZone_Ok in E. now apply H in E.
    + destruct (N.leb_spec 65536 port); [reflexivity|lia].
  - intros na Hna. unfold toWebtransportMultiaddr.
    destruct (manet.FromNetAddr IP_String na) as [m|e] eqn:E; [|eauto].
    exists errNotUDP.
    pose proof (toWebtransportMultiaddr_not_UDP _ _ _ E Hna) as H.
    unfold toWebtransportMultiaddr in H. now rewrite E in H.
Qed.

(** ** Certificate hashes in addresses *)

Section CertHashes.

Context {MF : Multiformats}.

Lemma ForEach_collects (a : ma.Multiaddr) (acc : list string) :
  ma.ForEach a
    (fun c certHashesStr =>
       if (ma.Code (ma.Proto c) =? ma.P_CERTHASH)%Z
       then (true, certHashesStr ++ [ma.Value c])
       else (true, certHashesStr))
    acc
  = acc ++ certHashValues a.
Proof.
  revert acc. unfold certHashValues.
  induction a as [|c a IH]; intros acc; cbn.
  - now rewrite app_nil_r.
  - unfold isCertHash, ma.hasCode.
    destruct (ma.Code (ma.Proto c) =? ma.P_CERTHASH)%Z; cbn.
    + rewrite IH, <- app_assoc. reflexivity.
    + apply IH.
Qed.

Lemma extractCertHashes_unfold (a : ma.Multiaddr) :
  extractCertHashes a = decodeCertHashes (certHashValues a) [].
Proof.
  unfold extractCertHashes. now rewrite ForEach_collects.
Qed.

Lemma decodeCertHashes_Ok (ss : list string) (acc out : list multihash.DecodedMultihash) :
  decodeCertHashes ss acc = Ok out <->
  exists dhs, out = acc ++ dhs /\ Forall2 decodesTo ss dhs.
Proof.
  revert acc out. induction ss as [|s ss IH]; intros acc out; cbn.
  - split.
    + intros [= <-]. exists []. rewrite app_nil_r. split; [reflexivity|constructor].
    + intros (dhs & -> & F). inversion F. now rewrite app_nil_r.
  - split.
    + destruct (multibase_Decode s) as [[e ch]|] eqn:Eb; [|discriminate].
      destruct (multihash_Decode ch) as [dh|] eqn:Eh; [|discriminate].
      intros H. apply IH in H. destruct H as (dhs & -> & F).
      exists (dh :: dhs). rewrite <- app_assoc. split; [reflexivity|].
      constructor; [|exact F]. now exists e, ch.
    + intros (dhs & -> & F). inversion F as [|s' dh ss' dhs' (e & ch & Eb & Eh) F']; subst.
      rewrite Eb, Eh. apply IH. exists dhs'. rewrite <- app_assoc. now split.
Qed.

Lemma decodeCertHashes_Err (ss : list string) (acc : list multihash.DecodedMultihash)
      (err : error) :
  decodeCertHashes ss acc = Err err <->
  exists good s bad dhs,
    ss = good ++ s :: bad /\ Forall2 decodesTo good dhs /\ malformed s err.
Proof.
  revert acc. induction ss as [|s ss IH]; intros acc; cbn.
  - split; [discriminate|].
    intros (good & s & bad & dhs & E & _). now destruct good.
  - split.
    + destruct (multibase_Decode s) as [[e ch]|e] eqn:Eb.
      * destruct (multihash_Decode ch) as [dh|e'] eqn:Eh.
        -- intros H. apply IH in H.
           destruct H as (good & s' & bad & dhs & -> & F & M).
           exists (s :: good), s', bad, (dh :: dhs). repeat split; auto.
           constructor; [|exact F]. now exists e, ch.
        -- intros [= <-]. exists [], s, ss, []. repeat split; [constructor|].
           right. now exists e, ch, e'.
      * intros [= <-]. exists [], s, ss, []. repeat split; [constructor|].
        left. now exists e.
    + intros (good & s' & bad & dhs & E & F & M).
      destruct good as [|g good]; cbn in E; injection E as -> ->.
      * destruct M as [(e & Eb & ->) | (enc & ch & e & Eb & Eh & ->)].
        -- now rewrite Eb.
        -- now rewrite Eb, Eh.
      * inversion F as [|g' dh good' dhs' (e & ch & Eb & Eh) F']; subst.
        rewrite Eb, Eh. apply IH. now exists good, s', bad, dhs'.
Qed.

(** C5.  [extractCertHashes] succeeds exactly when every certhash
    component of the address decodes, and then returns their multihashes
    in the order of the components; it fails exactly when some certhash
    component is refused by the multibase or the multihash decoder, with
    the error of the first such component wrapped as a decoding failure,
    and an error carries no hashes. *)
Theorem extractCertHashes_all_or_error (a : ma.Multiaddr) :
  (forall dhs,
      extractCertHashes a = Ok dhs <-> Forall2 decodesTo (certHashValues a) dhs) /\
  (forall err,
      extractCertHashes a = Err err <->
      exists good s bad dhs,
        certHashValues a = good ++ s :: bad /\
        Forall2 decodesTo good dhs /\ malformed s err).
Proof.
  split.
  - intros dhs. rewrite extractCertHashes_unfold, decodeCertHashes_Ok. cbn.
    split.
    + now intros (dhs' & -> & F).
    + intros F. now exists dhs.
  - intros err. rewrite extractCertHashes_unfold. apply decodeCertHashes_Err.
Qed.

End CertHashes.

Section CertHashComponent.

Context {MF : Multiformats}.

Lemma addrComponentForCert_unfold (h : bytes) (comp : ma.Multiaddr) :
  addrComponentForCert h = Ok comp <->
  exists mh certStr,
    multihash_Encode h multihash.SHA2_256 = Ok mh /\
    multibase_Encode multibase.Base58BTC mh = Ok certStr /\
    ma_NewComponent "certhash" certStr = Ok comp.
Proof.
  unfold addrComponentForCert, bind.
  change (ma.Name (ma.ProtocolWithCode ma.P_CERTHASH)) with "certhash"%string.
  split.
  - destruct (multihash_Encode h multihash.SHA2_256) as [mh|] eqn:E1; [|discriminate].
    destruct (multibase_Encode multibase.Base58BTC mh) as [s|] eqn:E2; [|discriminate].
    intros H. exists mh, s. auto.
  - intros (mh & s & -> & -> & H). exact H.
Qed.

Lemma certHashValues_app (a b : ma.Multiaddr) :
  certHashValues (a ++ b) = certHashValues a ++ certHashValues b.
Proof.
  unfold certHashValues. now rewrite filter_app, map_app.
Qed.

Lemma certHashValues_none (a : ma.Multiaddr) :
  (forall c, In c a -> ma.Code (ma.Proto c) <> ma.P_CERTHASH) ->
  certHashValues a = [].
Proof.
  unfold certHashValues. induction a as [|c a IH]; intros H; cbn; [reflexivity|].
  unfold isCertHash at 1, ma.hasCode.
  destruct (Z.eqb_spec (ma.Code (ma.Proto c)) ma.P_CERTHASH) as [E|_].
  - exfalso. apply (H c); [now left|exact E].
  - apply IH. intros d Hd. apply H. now right.
Qed.

(** C10.  When the codecs round-trip, the component built from a digest
    [h], appended to an address without certhash components, is read back
    by [extractCertHashes] as exactly one multihash, of code SHA2-256 and
    of digest [h]. *)
Theorem extractCertHashes_addrComponentForCert
        (h : bytes) (a : ma.Multiaddr) :
  multihash_roundtrip ->
  multibase_roundtrip ->
  NewComponent_certhash ->
  (forall c, In c a -> ma.Code (ma.Proto c) <> ma.P_CERTHASH) ->
  exists comp dh,
    addrComponentForCert h = Ok comp /\
    extractCertHashes (ma.Encapsulate a comp) = Ok [dh] /\
    multihash.Code dh = multihash.SHA2_256 /\
    multihash.Digest dh = h.
Proof.
  intros Hmh Hmb Hnc Ha.
  destruct (Hmh h) as (mh & dh & Emh & Dmh & Hcode & Hdig).
  destruct (Hmb mh) as (s & Emb & Dmb).
  destruct (Hnc s _ mh dh Dmb Dmh) as (c & e' & Enc & Hc & Dc).
  exists [c], dh. repeat split; auto.
  - apply addrComponentForCert_unfold. now exists mh, s.
  - rewrite extractCertHashes_unfold. unfold ma.Encapsulate.
    rewrite certHashValues_app, (certHashValues_none a Ha). cbn.
    unfold certHashValues. cbn. unfold isCertHash, ma.hasCode.
    rewrite Hc. cbn. now rewrite Dc, Dmh.
Qed.

End CertHashComponent.

(** ** The reference codecs meet the contracts *)

Module RefFacts.

Import Ref.
Local Open Scope Z_scope.

Lemma byteZ_range (b : byte) : 0 <= byteZ b < 256.
Proof.
  unfold byteZ. pose proof (Byte.to_N_bounded b). lia.
Qed.

Lemma Zbyte_byteZ (b : byte) : Zbyte (byteZ b) = b.
Proof.
  unfold Zbyte, byteZ. rewrite N2Z.id, Byte.of_to_N. reflexivity.
Qed.

Lemma byteZ_Zbyte (z : Z) : 0 <= z < 256 -> byteZ (Zbyte z) = z.
Proof.
  intros H. unfold Zbyte, byteZ.
  destruct (Byte.of_N (Z.to_N z)) as [b|] eqn:E.
  - apply Byte.to_of_N in E. rewrite E. lia.
  - apply Byte.of_N_None_iff in E. lia.
Qed.

Lemma map_Zbyte_byteZ (b : bytes) : map Zbyte (map byteZ b) = b.
Proof.
  rewrite map_map. erewrite map_ext; [apply map_id|]. apply Zbyte_byteZ.
Qed.

(** Unsigned varints *)

Lemma uvarint_putUvarint_fuel (fuel : nat) :
  forall (x : Z) (first : bool) (rest : bytes),
    0 <= x < 2 ^ Z.of_nat fuel ->
    (0 < fuel)%nat ->
    first = true \/ 0 < x ->
    uvarint_from first (putUvarint_fuel fuel x ++ rest) = Ok (x, rest).
Proof.
  induction fuel as [|fuel IH]; intros x first rest Hx Hf Hfirst; [lia|].
  cbn [putUvarint_fuel].
  destruct (Z.ltb_spec x 128) as [Hlt|Hge].
  - cbn. rewrite byteZ_Zbyte by lia.
    destruct (Z.ltb_spec x 128); [|lia].
    destruct (Z.eqb_spec x 0) as [->|_]; cbn.
    + destruct Hfirst as [->|]; [reflexivity|lia].
    + reflexivity.
  - assert (Hm : 0 <= x mod 128 < 128) by (apply Z.mod_pos_bound; lia).
    cbn [app uvarint_from]. rewrite byteZ_Zbyte by lia.
    destruct (Z.ltb_spec (x mod 128 + 128) 128); [lia|].
    assert (Hq : 0 < x / 128) by (apply Z.div_str_pos; lia).
    assert (Hfuel : x / 128 < 2 ^ Z.of_nat fuel).
    { apply Z.div_lt_upper_bound; [lia|].
      rewrite Nat2Z.inj_succ, Z.pow_succ_r in Hx by lia.
      assert (0 < 2 ^ Z.of_nat fuel) by (apply Z.pow_pos_nonneg; lia). lia. }
    rewrite IH; try lia.
    + f_equal. f_equal. pose proof (Z.div_mod x 128). lia.
    + destruct fuel; [cbn in Hfuel; lia|lia].
Qed.

Lemma uvarint_putUvarint (x : Z) (rest : bytes) :
  0 <= x -> uvarint (putUvarint x ++ rest) = Ok (x, rest).
Proof.
  intros Hx. unfold uvarint, putUvarint.
  apply uvarint_putUvarint_fuel; [|lia|now left].
  split; [lia|].
  rewrite Nat2Z.inj_succ, Z2Nat.id by apply Z.log2_nonneg.
  destruct (Z.eq_dec x 0) as [->|]; [reflexivity|].
  apply Z.log2_spec. lia.
Qed.

Lemma putUvarint_nonempty (x : Z) : (1 <= List.length (putUvarint x))%nat.
Proof.
  unfold putUvarint. cbn [putUvarint_fuel].
  destruct (x <? 128); cbn; lia.
Qed.

Lemma mh_Decode_Encode (h : bytes) (code : Z) :
  0 <= code ->
  exists mh,
    mh_Encode h code = Ok mh /\
    mh_Decode mh = Ok {| multihash.Code := code; multihash.Name := Codes code;
                         multihash.Length := Z.of_nat (List.length h);
                         multihash.Digest := h |}.
Proof.
  intros Hc. eexists. split; [reflexivity|].
  unfold mh_Decode.
  destruct (Nat.ltb_spec (List.length (putUvarint code ++
              putUvarint (Z.of_nat (List.length h)) ++ h)) 2) as [Hlen|_].
  - rewrite !length_app in Hlen.
    pose proof (putUvarint_nonempty code).
    pose proof (putUvarint_nonempty (Z.of_nat (List.length h))). lia.
  - rewrite uvarint_putUvarint by lia.
    rewrite uvarint_putUvarint by lia.
    rewrite !Z.ltb_irrefl. reflexivity.
Qed.

End RefFacts.

Module RefDigits.

Import Ref.
Local Open Scope Z_scope.

Section Radix.

Variable base : Z.
Hypothesis base_ge_2 : 2 <= base.

Local Abbreviation digit := (Ref.digit base).
Local Abbreviation shift := (Ref.shift base).

Lemma div_lt_pow2 (n : Z) (fuel : nat) :
  0 <= n < 2 ^ Z.of_nat (S fuel) -> 0 <= n / base < 2 ^ Z.of_nat fuel.
Proof.
  intros Hn. split; [apply Z.div_pos; lia|].
  apply Z.div_lt_upper_bound; [lia|].
  rewrite Nat2Z.inj_succ, Z.pow_succ_r in Hn by lia.
  assert (0 < 2 ^ Z.of_nat fuel) by (apply Z.pow_pos_nonneg; lia). nia.
Qed.

Lemma to_digits_fuel_0 (fuel : nat) (acc : list Z) :
  to_digits_fuel base fuel 0 acc = acc.
Proof. destruct fuel; reflexivity. Qed.

Lemma to_digits_fuel_S (fuel : nat) :
  forall n acc,
    0 <= n < 2 ^ Z.of_nat fuel ->
    to_digits_fuel base (S fuel) n acc = to_digits_fuel base fuel n acc.
Proof.
  induction fuel as [|fuel IH]; intros n acc Hn.
  - assert (n = 0) by (cbn in Hn; lia). subst. reflexivity.
  - cbn [to_digits_fuel]. destruct (n <=? 0); [reflexivity|].
    apply IH, div_lt_pow2, Hn.
Qed.

(** With enough fuel, the digits of a positive number are those of its
    quotient followed by its remainder. *)
Lemma to_digits_fuel_step (fuel : nat) (n : Z) (acc : list Z) :
  0 < n < 2 ^ Z.of_nat fuel ->
  to_digits_fuel base fuel n acc
  = to_digits_fuel base fuel (n / base) (n mod base :: acc).
Proof.
  intros Hn. destruct fuel as [|fuel]; [cbn in Hn; lia|].
  rewrite (to_digits_fuel_S fuel (n / base)) by (apply div_lt_pow2; lia).
  cbn [to_digits_fuel].
  destruct (Z.leb_spec n 0); [lia|reflexivity].
Qed.

Lemma of_to_digits_fuel (fuel : nat) :
  forall n acc,
    0 <= n < 2 ^ Z.of_nat fuel ->
    fold_left shift (to_digits_fuel base fuel n acc) 0 = fold_left shift acc n.
Proof.
  induction fuel as [|fuel IH]; intros n acc Hn.
  - assert (n = 0) by (cbn in Hn; lia). subst. reflexivity.
  - cbn [to_digits_fuel]. destruct (Z.leb_spec n 0).
    + assert (n = 0) by lia. subst. reflexivity.
    + rewrite IH by (apply div_lt_pow2; exact Hn).
      cbn [fold_left]. f_equal. unfold shift.
      pose proof (Z.div_mod n base). lia.
Qed.

Lemma log2_fuel (n : Z) : 0 <= n -> 0 <= n < 2 ^ Z.of_nat (S (Z.to_nat (Z.log2 n))).
Proof.
  intros Hn. split; [exact Hn|].
  rewrite Nat2Z.inj_succ, Z2Nat.id by apply Z.log2_nonneg.
  destruct (Z.eq_dec n 0) as [->|]; [reflexivity|].
  apply Z.log2_spec. lia.
Qed.

Lemma of_to_digits (n : Z) : 0 <= n -> of_digits base (to_digits base n) = n.
Proof.
  intros Hn. unfold of_digits, to_digits.
  rewrite of_to_digits_fuel by (apply log2_fuel; exact Hn). reflexivity.
Qed.

Lemma to_digits_fuel_digits (fuel : nat) :
  forall n acc,
    0 <= n -> Forall digit acc -> Forall digit (to_digits_fuel base fuel n acc).
Proof.
  induction fuel as [|fuel IH]; intros n acc Hn Hacc; [exact Hacc|].
  cbn [to_digits_fuel]. destruct (n <=? 0); [exact Hacc|].
  apply IH.
  - apply Z.div_pos; lia.
  - constructor; [|exact Hacc]. apply Z.mod_pos_bound. lia.
Qed.

Lemma to_digits_digits (n : Z) : 0 <= n -> Forall digit (to_digits base n).
Proof. intros Hn. apply to_digits_fuel_digits; [exact Hn|constructor]. Qed.

Lemma to_digits_fuel_canonical (fuel : nat) :
  forall n acc,
    0 < n < 2 ^ Z.of_nat fuel ->
    leading_zeros (to_digits_fuel base fuel n acc) = O.
Proof.
  induction fuel as [|fuel IH]; intros n acc Hn; [cbn in Hn; lia|].
  cbn [to_digits_fuel]. destruct (Z.leb_spec n 0); [lia|].
  destruct (Z.eq_dec (n / base) 0) as [E|E].
  - rewrite E, to_digits_fuel_0. cbn.
    apply Z.div_small_iff in E; [|lia].
    destruct E as [E|E]; [|lia].
    rewrite Z.mod_small by lia.
    destruct (Z.eqb_spec n 0); [lia|reflexivity].
  - apply IH. pose proof (div_lt_pow2 n fuel). lia.
Qed.

Lemma to_digits_canonical (n : Z) : 0 <= n -> leading_zeros (to_digits base n) = O.
Proof.
  intros Hn. unfold to_digits.
  destruct (Z.eq_dec n 0) as [->|]; [reflexivity|].
  apply to_digits_fuel_canonical. pose proof (log2_fuel n). lia.
Qed.

Lemma fold_shift_pos (ds : list Z) :
  forall v, 0 < v -> Forall digit ds -> 0 < fold_left shift ds v.
Proof.
  induction ds as [|d ds IH]; intros v Hv Hds; [exact Hv|].
  inversion Hds as [|? ? [Hd0 Hd1] Hds']; subst. cbn [fold_left].
  apply IH; [unfold shift; nia|exact Hds'].
Qed.

Lemma fold_shift_nonneg (ds : list Z) :
  forall v, 0 <= v -> Forall digit ds -> 0 <= fold_left shift ds v.
Proof.
  induction ds as [|d ds IH]; intros v Hv Hds; [exact Hv|].
  inversion Hds as [|? ? [Hd0 Hd1] Hds']; subst. cbn [fold_left].
  apply IH; [unfold shift; nia|exact Hds'].
Qed.

Lemma fold_shift_mono (ds : list Z) :
  forall v, 0 <= v -> Forall digit ds -> v <= fold_left shift ds v.
Proof.
  induction ds as [|d ds IH]; intros v Hv Hds; [cbn; lia|].
  inversion Hds as [|? ? [Hd0 Hd1] Hds']; subst. cbn [fold_left].
  transitivity (shift v d).
  - unfold shift. nia.
  - apply IH; [unfold shift; nia|exact Hds'].
Qed.

(** Peeling the digits off again. *)
Lemma to_digits_fuel_fold (fuel : nat) (ds : list Z) :
  forall v acc,
    0 < v -> Forall digit ds ->
    fold_left shift ds v < 2 ^ Z.of_nat fuel ->
    to_digits_fuel base fuel (fold_left shift ds v) acc
    = to_digits_fuel base fuel v (ds ++ acc).
Proof.
  induction ds as [|d ds IH] using rev_ind; intros v acc Hv Hds Hfuel.
  - reflexivity.
  - apply Forall_app in Hds. destruct Hds as [Hds Hd].
    inversion Hd as [|? ? [Hd0 Hd1] _]; subst.
    rewrite fold_left_app in *. cbn [fold_left] in *.
    pose proof (fold_shift_pos ds v Hv Hds) as Hpos.
    rewrite to_digits_fuel_step by (unfold shift in *; nia).
    unfold shift at 1 3.
    rewrite Z.div_add_l, Z.div_small, Z.add_0_r by lia.
    rewrite Z.add_comm, Z.mod_add, Z.mod_small by lia.
    rewrite IH; auto.
    + now rewrite <- app_assoc.
    + unfold shift in Hfuel at 1. nia.
Qed.

Lemma to_of_digits (ds : list Z) :
  Forall digit ds -> leading_zeros ds = O ->
  to_digits base (of_digits base ds) = ds.
Proof.
  intros Hds Hz. destruct ds as [|d ds]; [reflexivity|].
  inversion Hds as [|? ? [Hd0 Hd1] Hds']; subst.
  cbn in Hz. destruct (Z.eqb_spec d 0); [discriminate|].
  unfold of_digits, to_digits.
  cbn [fold_left]. unfold shift at 2 4. rewrite Z.mul_0_l, Z.add_0_l.
  pose proof (fold_shift_pos ds d ltac:(lia) Hds') as Hpos.
  pose proof (log2_fuel (fold_left shift ds d) ltac:(lia)) as Hfuel.
  rewrite to_digits_fuel_fold by (auto; lia).
  rewrite to_digits_fuel_step.
  - rewrite Z.div_small, Z.mod_small, to_digits_fuel_0, app_nil_r by lia.
    reflexivity.
  - pose proof (fold_shift_mono ds d ltac:(lia) Hds'). lia.
Qed.

Lemma of_digits_leading_zeros (z : nat) (ds : list Z) :
  of_digits base (repeat 0 z ++ ds) = of_digits base ds.
Proof.
  unfold of_digits. induction z as [|z IH]; [reflexivity|].
  cbn [repeat app fold_left]. exact IH.
Qed.

Lemma split_leading_zeros (ds : list Z) :
  exists ds', ds = repeat 0 (leading_zeros ds) ++ ds' /\ leading_zeros ds' = O.
Proof.
  induction ds as [|d ds (ds' & E & Hz)]; cbn.
  - now exists [].
  - destruct (Z.eqb_spec d 0) as [->|Hd].
    + exists ds'. cbn. now rewrite <- E.
    + exists (d :: ds). cbn. split; [reflexivity|].
      destruct (Z.eqb_spec d 0); [contradiction|reflexivity].
Qed.

Lemma leading_zeros_repeat (z : nat) (ds : list Z) :
  leading_zeros ds = O -> leading_zeros (repeat 0 z ++ ds) = z.
Proof.
  intros H. induction z as [|z IH]; cbn; [exact H|]. now rewrite IH.
Qed.

End Radix.

Lemma Forall_digit_repeat base (z : nat) : 2 <= base -> Forall (digit base) (repeat 0 z).
Proof.
  intros H. induction z; cbn; constructor; auto. unfold digit. lia.
Qed.

Lemma rebase_digits (from to : Z) (ds : list Z) :
  2 <= from -> 2 <= to -> Forall (digit from) ds ->
  Forall (digit to) (rebase from to ds).
Proof.
  intros Hf Ht Hds. unfold rebase. apply Forall_app. split.
  - now apply Forall_digit_repeat.
  - apply to_digits_digits; [exact Ht|].
    unfold of_digits. now apply fold_shift_nonneg with (base := from).
Qed.

(** Rewriting digits in another base and back changes nothing. *)
Lemma rebase_rebase (from to : Z) (ds : list Z) :
  2 <= from -> 2 <= to -> Forall (digit from) ds ->
  rebase to from (rebase from to ds) = ds.
Proof.
  intros Hf Ht Hds.
  destruct (split_leading_zeros ds) as (ds' & E & Hz).
  assert (Hds' : Forall (digit from) ds').
  { rewrite E in Hds. apply Forall_app in Hds. tauto. }
  assert (Hn : 0 <= of_digits from ds).
  { unfold of_digits. now apply fold_shift_nonneg with (base := from). }
  assert (En : of_digits from ds = of_digits from ds').
  { rewrite E at 1. apply of_digits_leading_zeros. }
  unfold rebase.
  rewrite leading_zeros_repeat by (apply to_digits_canonical; assumption).
  rewrite of_digits_leading_zeros, of_to_digits by assumption.
  rewrite En, to_of_digits by assumption.
  now rewrite <- E.
Qed.

End RefDigits.

Module RefText.

Import Ref RefFacts RefDigits.
Local Open Scope Z_scope.

Lemma index_of_symbol58 (d : Z) :
  0 <= d < 58 -> index_of (symbol alphabet58 d) alphabet58 = Some d.
Proof.
  intros H. unfold symbol.
  rewrite <- (Z2Nat.id d) at 2 by lia.
  assert (Hk : (Z.to_nat d < 58)%nat) by lia.
  generalize dependent (Z.to_nat d). clear. intros k Hk.
  do 58 (destruct k as [|k]; [reflexivity|]). lia.
Qed.

Lemma index_of_symbol64 (d : Z) :
  0 <= d < 64 -> index_of (symbol alphabet64url d) alphabet64url = Some d.
Proof.
  intros H. unfold symbol.
  rewrite <- (Z2Nat.id d) at 2 by lia.
  assert (Hk : (Z.to_nat d < 64)%nat) by lia.
  generalize dependent (Z.to_nat d). clear. intros k Hk.
  do 64 (destruct k as [|k]; [reflexivity|]). lia.
Qed.

Lemma indices_symbols (alphabet : list ascii) (n : Z) (ds : list Z) :
  (forall d, 0 <= d < n -> index_of (symbol alphabet d) alphabet = Some d) ->
  Forall (digit n) ds ->
  indices alphabet (map (symbol alphabet) ds) = Some ds.
Proof.
  intros Ha. induction 1 as [|d ds Hd _ IH]; cbn; [reflexivity|].
  now rewrite Ha, IH.
Qed.

Lemma Forall_digit_bytes (b : bytes) : Forall (digit 256) (map byteZ b).
Proof.
  apply Forall_forall. intros z Hz. apply in_map_iff in Hz.
  destruct Hz as (x & <- & _). apply byteZ_range.
Qed.

Lemma base58_decode_encode (b : bytes) : base58_decode (base58_encode b) = Ok b.
Proof.
  unfold base58_decode, base58_encode.
  rewrite (indices_symbols alphabet58 58).
  - rewrite rebase_rebase by (try lia; apply Forall_digit_bytes).
    now rewrite map_Zbyte_byteZ.
  - apply index_of_symbol58.
  - apply rebase_digits; try lia. apply Forall_digit_bytes.
Qed.

Lemma base64_groups_ungroups (n : nat) :
  forall b,
    (List.length b <= n)%nat -> Forall (digit 256) b ->
    Forall (digit 64) (base64_groups b) /\
    base64_ungroups (base64_groups b) = Some b.
Proof.
  unfold digit.
  induction n as [|n IH]; intros b Hlen Hb.
  - destruct b; [|cbn in Hlen; lia]. split; [constructor|reflexivity].
  - destruct b as [|x [|y [|z rest]]].
    + split; [constructor|reflexivity].
    + inversion Hb as [|? ? Hx _]; subst. cbn. split.
      * repeat constructor; Z.div_mod_to_equations; lia.
      * do 2 f_equal. Z.div_mod_to_equations; lia.
    + inversion Hb as [|? ? Hx Hb']; subst.
      inversion Hb' as [|? ? Hy _]; subst. cbn. split.
      * repeat constructor; Z.div_mod_to_equations; lia.
      * do 2 f_equal; [|f_equal]; Z.div_mod_to_equations; lia.
    + inversion Hb as [|? ? Hx Hb']; subst.
      inversion Hb' as [|? ? Hy Hb'']; subst.
      inversion Hb'' as [|? ? Hz Hrest]; subst.
      destruct (IH rest) as [Hd Hu]; [cbn in Hlen; lia|exact Hrest|].
      cbn [base64_groups base64_ungroups]. rewrite Hu. split.
      * repeat (constructor; [Z.div_mod_to_equations; lia|]). exact Hd.
      * do 2 f_equal; [|f_equal; [|f_equal]]; Z.div_mod_to_equations; lia.
Qed.

Lemma base64url_decode_encode (b : bytes) :
  base64url_decode (base64url_encode b) = Ok b.
Proof.
  unfold base64url_decode, base64url_encode.
  destruct (base64_groups_ungroups (List.length b) (map byteZ b)) as [Hd Hu].
  - now rewrite length_map.
  - apply Forall_digit_bytes.
  - rewrite (indices_symbols alphabet64url 64) by (auto using index_of_symbol64).
    rewrite Hu. now rewrite map_Zbyte_byteZ.
Qed.

Lemma mb_Decode_Encode (e : Encoding) (b : bytes) (s : string) :
  mb_Encode e b = Ok s -> mb_Decode s = Ok (e, b).
Proof.
  unfold mb_Encode.
  destruct (Ascii.eqb e multibase.Base58BTC) eqn:E58.
  - intros [= <-]. cbn [mb_Decode]. rewrite E58.
    now rewrite list_ascii_of_string_of_list_ascii, base58_decode_encode.
  - destruct (Ascii.eqb e multibase.Base64url) eqn:E64; [|discriminate].
    intros [= <-]. cbn [mb_Decode]. rewrite E58, E64.
    now rewrite list_ascii_of_string_of_list_ascii, base64url_decode_encode.
Qed.

End RefText.

(** The reference codecs meet the three contracts. *)

Lemma Ref_multihash_roundtrip : multihash_roundtrip (MF := RefMultiformats).
Proof.
  intros h. destruct (RefFacts.mh_Decode_Encode h multihash.SHA2_256) as (mh & E & D).
  - discriminate.
  - eexists mh, _. cbn. repeat split; eauto.
Qed.

Lemma Ref_multibase_roundtrip : multibase_roundtrip (MF := RefMultiformats).
Proof.
  intros b. eexists. split; [reflexivity|].
  now apply RefText.mb_Decode_Encode.
Qed.

Lemma Ref_NewComponent_certhash : NewComponent_certhash (MF := RefMultiformats).
Proof.
  intros s e ch dh Eb Eh. cbn in *.
  eexists _, multibase.Base64url. unfold Ref.NewComponent, Ref.certHashStB.
  cbn [String.eqb Ascii.eqb Bool.eqb].
  rewrite Eb, Eh. cbn. repeat split.
  apply RefText.mb_Decode_Encode. reflexivity.
Qed.

(** ** The certhash component with the reference codecs *)




(** ** The listener as a transition system *)

Section ListenerFacts.

Variable w : World.

(** Case analysis on a move that is enabled. *)
Ltac step_cases s H :=
  destruct s;
  unfold step, upgradeHandler, upgradeHandlerReturn, AcceptEnter, AcceptNext,
    handshakeGoroutine, serveReturn, CloseNext, accept_return, set_pc in H;
  cbn [ctxDone lqueue lsenders waiting call pc popped workers
       results rsenders orphans closedSessions returns
       serverClosedChan serverShut cpc] in *;
  repeat match type of H with
         | context [match ?x with _ => _ end] => destruct x eqn:?; try discriminate
         end;
  injection H as <-; cbn [ctxDone lqueue lsenders waiting call pc popped workers
                          results rsenders orphans closedSessions returns
                          serverClosedChan serverShut cpc] in *.

Lemma run_app (s : State) (es1 es2 : list event) :
  run w s (es1 ++ es2) =
  match run w s es1 with
  | Some s' => run w s' es2
  | None => None
  end.
Proof.
  revert s. induction es1 as [|e es1 IH]; intros s; cbn; [reflexivity|].
  destruct (step w s e); [apply IH|reflexivity].
Qed.

(** Induction over the states a schedule reaches from [initial]. *)
Lemma run_invariant (P : State -> Prop) :
  P initial ->
  (forall s e s', P s -> step w s e = Some s' -> P s') ->
  forall es s, run w initial es = Some s -> P s.
Proof.
  intros H0 Hstep es.
  assert (G : forall s0, P s0 -> forall s, run w s0 es = Some s -> P s).
  { induction es as [|e es IH]; intros s0 Hs0 s; cbn.
    - now intros [= <-].
    - destruct (step w s0 e) as [s1|] eqn:E; [|discriminate].
      apply IH. now apply (Hstep s0 e). }
  now apply G.
Qed.

Lemma chan_send_cases {A} (buf parked : list A) (x : A) (buf' parked' : list A) :
  chan_send buf parked x = (buf', parked') ->
  (List.length buf < queueLen /\ buf' = buf ++ [x] /\ parked' = parked) \/
  (queueLen <= List.length buf /\ buf' = buf /\ parked' = parked ++ [x]).
Proof.
  unfold chan_send. destruct (Nat.ltb_spec (List.length buf) queueLen).
  - intros [= <- <-]. now left.
  - intros [= <- <-]. now right.
Qed.

Lemma chan_recv_cases {A} (buf parked : list A) (x : A) (buf' parked' : list A) :
  chan_recv buf parked = Some (x, buf', parked') ->
  exists rest,
    buf = x :: rest /\
    ((parked = [] /\ buf' = rest /\ parked' = []) \/
     (exists y, parked = y :: parked' /\ buf' = rest ++ [y])).
Proof.
  unfold chan_recv. destruct buf as [|b rest]; [discriminate|].
  destruct parked as [|y parked0]; intros [= <- <- <-]; exists rest.
  - split; [reflexivity|]. now left.
  - split; [reflexivity|]. right. now exists y.
Qed.

Lemma remove_worker_cases (c : Session) (ws : list (nat * Session)) k ws' :
  remove_worker c ws = Some (k, ws') ->
  In (k, c) ws /\ (forall x, In x ws' -> In x ws) /\
  (forall x, In x ws -> x = (k, c) \/ In x ws').
Proof.
  revert k ws'. induction ws as [|[k0 c0] ws IH]; intros k ws'; cbn; [discriminate|].
  destruct (Nat.eqb_spec c0 c) as [->|Hne].
  - intros [= <- <-]. repeat split; auto.
    intros x [<-|Hx]; auto.
  - destruct (remove_worker c ws) as [[k1 r]|]; [|discriminate].
    intros [= <- <-]. destruct (IH _ _ eq_refl) as (H1 & H2 & H3).
    repeat split.
    + now right.
    + intros x [<-|Hx]; [now left|right; auto].
    + intros x [<-|Hx]; [right; now left|].
      destruct (H3 x Hx); auto. right. now right.
Qed.

(** *** The bounded queue *)

Ltac chan_cases :=
  repeat match goal with
         | E : chan_send _ _ _ = _ |- _ =>
             apply chan_send_cases in E;
             destruct E as [(? & -> & ->)|(? & -> & ->)]
         | E : chan_recv _ _ = _ |- _ =>
             apply chan_recv_cases in E;
             let Eq := fresh "Eq" in
             let Ep := fresh "Ep" in
             destruct E as (? & Eq & [(Ep & -> & ->)|(? & Ep & ->)])
         end; subst; try discriminate;
  repeat match goal with
         | E : _ :: _ = _ :: _ |- _ => injection E as ? ?; subst
         end.

Lemma queue_inv_step (s : State) (e : event) (s' : State) :
  queue_inv s -> step w s e = Some s' -> queue_inv s'.
Proof.
  unfold queue_inv. intros [Hlen Hpark] H. step_cases s H; chan_cases; auto.
  all: rewrite ?length_app in *; cbn [List.length] in *.
  all: split; [lia|].
  all: destruct Hpark as [Hp|Hq];
    first [ discriminate Hp | left; assumption | left; reflexivity
          | right; lia | exfalso; lia ].
Qed.

Lemma upgraded_app (es1 es2 : list event) :
  upgraded (es1 ++ es2) = upgraded es1 ++ upgraded es2.
Proof.
  induction es1 as [|e es1 IH]; cbn; [reflexivity|].
  destruct e; cbn; now rewrite ?IH.
Qed.

Lemma fifo_step (s : State) (e : event) (s' : State) :
  queue_inv s -> step w s e = Some s' ->
  popped s' ++ lqueue s' ++ lsenders s'
  = (popped s ++ lqueue s ++ lsenders s) ++ upgraded [e].
Proof.
  unfold queue_inv. intros [Hlen Hpark] H. step_cases s H; chan_cases;
    cbn [upgraded]; rewrite ?app_nil_r; auto.
  all: destruct Hpark as [Hp|Hq];
    try discriminate Hp; try (exfalso; lia); rewrite ?Hp;
    rewrite ?app_nil_r; repeat rewrite <- app_assoc; reflexivity.
Qed.

Lemma run_fifo (es : list event) :
  forall s0 s,
    queue_inv s0 -> run w s0 es = Some s ->
    queue_inv s /\
    popped s ++ lqueue s ++ lsenders s
    = (popped s0 ++ lqueue s0 ++ lsenders s0) ++ upgraded es.
Proof.
  induction es as [|e es IH]; intros s0 s Hq; cbn [run].
  - intros [= <-]. cbn. now rewrite app_nil_r.
  - destruct (step w s0 e) as [s1|] eqn:E; [|discriminate].
    intros Hrun.
    destruct (IH s1 s (queue_inv_step s0 e s1 Hq E) Hrun) as [Hq' Hf].
    split; [exact Hq'|].
    rewrite Hf, (fifo_step s0 e s1 Hq E), <- app_assoc.
    f_equal. change (e :: es) with ([e] ++ es). now rewrite upgraded_app.
Qed.

(** *** What Accept returns *)








(** *** Close *)


(** *** The certificate manager behind [Multiaddr] *)

Lemma nth_error_rotateAt (fresh : ma.Component) (st : store) :
  forall p m,
    nth_error st p = Some m ->
    nth_error (rotateAt fresh p st) p = Some (rotate fresh m).
Proof.
  induction st as [|m0 st IH]; intros [|p] m; cbn; try discriminate.
  - now intros [= ->].
  - apply IH.
Qed.

End ListenerFacts.

Section ListenerProperties.

Variable w : World.


(** C2, amended.  The buffer of the raw-accept queue never holds more than
    [queueLen] = 16 sessions, and [Accept] receives the sessions in the
    order the callback sent them: the sessions received so far followed by
    the buffered ones are a prefix of the upgraded ones. *)
Theorem queue_bounded_fifo (es : list event) (s : State) :
  run w initial es = Some s ->
  List.length (lqueue s) <= queueLen /\
  exists rest, upgraded es = popped s ++ lqueue s ++ rest.
Proof.
  intros Hrun.
  destruct (run_fifo w es initial s) as [[Hlen _] Hf]; auto.
  - split; cbn; [unfold queueLen; lia|now left].
  - split; [exact Hlen|]. exists (lsenders s). cbn in Hf. now rewrite Hf.
Qed.


(** C7.  [Multiaddr] returns the listener's base address followed by the
    components the certificate manager advertises in the store at the
    time of the call, so that a read after a rotation shows the rotated
    hashes; under a static TLS configuration it returns the base address
    alone. *)
Theorem Multiaddr_reads_current_hashes (l : listener) (st : store) (m : certManager) :
  nth_error st (l_certManager l) = Some m ->
  Multiaddr l st = Some (l_multiaddr l ++ AddrComponent m) /\
  (forall fresh,
      Multiaddr l (rotateAt fresh (l_certManager l) st)
      = Some (l_multiaddr l ++ AddrComponent (rotate fresh m))) /\
  (m = StaticTLS -> Multiaddr l st = Some (l_multiaddr l)).
Proof.
  intros H. unfold Multiaddr, ma.Encapsulate. repeat split.
  - now rewrite H.
  - intros fresh. now rewrite (nth_error_rotateAt fresh st _ m H).
  - intros ->. rewrite H. cbn. now rewrite app_nil_r.
Qed.

End ListenerProperties.

(** ** The properties at concrete inputs *)


(** C2, as stated, fails: with sixteen sessions upgraded, one received by
    [Accept] and a seventeenth upgraded, the queue was never full, no
    session was rejected or closed, and seventeen sessions await their
    identity handshake. *)
Lemma seventeen_sessions_pending :
  exists s,
    run openWorld initial
        (map EvUpgrade (seq 1 16) ++
         [EvAcceptCall; EvAccept PickDone; EvAccept PickQueue; EvUpgrade 17])
    = Some s /\
    lsenders s = [] /\
    closedSessions s = [] /\
    List.length (pending s) = 17 /\
    queueLen < List.length (pending s).
Proof.
  eexists. split; [vm_compute; reflexivity|].
  repeat split. vm_compute. lia.
Qed.

(** With a full queue the callback neither rejects nor closes the new
    session: the handler is parked on the send with the session open. *)
Example seventeenth_session_parks :
  exists s,
    run openWorld initial (map EvUpgrade (seq 1 17)) = Some s /\
    lqueue s = seq 1 16 /\ lsenders s = [17] /\ closedSessions s = [].
Proof.
  eexists. split; [vm_compute; reflexivity|]. repeat split.
Qed.

Lemma queue_bounded_fifo_witness :
  exists s,
    run openWorld initial
        (map EvUpgrade (seq 1 17) ++
         [EvAcceptCall; EvAccept PickDone; EvAccept PickQueue])
    = Some s /\
    List.length (lqueue s) <= queueLen /\
    exists rest,
      upgraded (map EvUpgrade (seq 1 17) ++
                [EvAcceptCall; EvAccept PickDone; EvAccept PickQueue])
      = popped s ++ lqueue s ++ rest.
Proof.
  eexists. split; [vm_compute; reflexivity|].
  refine (queue_bounded_fifo openWorld
    (map EvUpgrade (seq 1 17) ++
     [EvAcceptCall; EvAccept PickDone; EvAccept PickQueue]) _ _).
  vm_compute. reflexivity.
Defined.



(** C1.  The handshake never consults the resource manager or the gater:
    in a world where the resource manager refuses every inbound connection
    and the gater rejects every peer, [Accept] returns the connection of
    session 1. *)
Theorem accept_returns_denied_and_gated_session :
  exists s conn,
    run denyingWorld initial
        [EvUpgrade 1; EvAcceptCall; EvAccept PickDone; EvAccept PickQueue;
         EvAccept PickDone; EvHandshake 1; EvAccept PickResult]
    = Some s /\
    returns s = [(1, Ok conn)] /\
    connSession conn = 1 /\
    OpenConnection denyingWorld DirInbound false 1 = Some (errLib "denied") /\
    InterceptSecured denyingWorld DirInbound (connRemoteKey conn) conn = false /\
    closedSessions s = [].
Proof.
  eexists. eexists. split; [vm_compute; reflexivity|].
  repeat split.
Qed.

(** Whatever the resource manager and the gater of the world answer, a
    session whose handshake succeeds is returned by [Accept] and is not
    closed. *)
Lemma accept_returns_every_authenticated_session
      (w : World) (c : Session) (conn : CapableConn) :
  handshake w c = Ok conn ->
  exists s,
    run w initial
        [EvUpgrade c; EvAcceptCall; EvAccept PickDone; EvAccept PickQueue;
         EvAccept PickDone; EvHandshake c; EvAccept PickResult]
    = Some s /\
    returns s = [(1, Ok conn)] /\ closedSessions s = [].
Proof.
  intros H. eexists. split; [|split].
  - cbn. unfold handshakeGoroutine. cbn. rewrite Nat.eqb_refl, H. cbn.
    reflexivity.
  - reflexivity.
  - reflexivity.
Qed.

(** The outcome of [handshake] is a function of the stream, of the
    identity handshake and of [newConn] alone. *)
Lemma handshake_ignores_policies (w1 w2 : World) (c : Session) :
  AcceptStream w1 = AcceptStream w2 ->
  SecureInbound w1 = SecureInbound w2 ->
  newConn w1 = newConn w2 ->
  handshake w1 c = handshake w2 c.
Proof.
  intros H1 H2 H3. unfold handshake. now rewrite H1, H2, H3.
Qed.

(** C9, as stated, fails: a UDP endpoint with the port 70000, and a UDP
    endpoint whose IP is nil, are refused. *)
Lemma udp_endpoints_refused :
  net.isUDP (net.UDPAddr (net.IPv4 x7f x00 x00 x01) 70000 "") = true /\
  toWebtransportMultiaddr (fun _ => "127.0.0.1"%string)
    (net.UDPAddr (net.IPv4 x7f x00 x00 x01) 70000 "")
  = Err (errLib "incorrect network addr conversion") /\
  net.isUDP (net.UDPAddr (net.IPv6 []) 1234 "") = true /\
  toWebtransportMultiaddr (fun _ => "<nil>"%string)
    (net.UDPAddr (net.IPv6 []) 1234 "")
  = Err (errLib "incorrect network addr conversion").
Proof. repeat split. Qed.

Lemma toWebtransportMultiaddr_wellformed_udp_only_witness :
  (exists v,
      let a := [{| ma.Proto := ma.protoIP4; ma.Value := "127.0.0.1" |}] ++
               [{| ma.Proto := ma.protoUDP; ma.Value := v |};
                {| ma.Proto := ma.protoQUIC; ma.Value := "" |};
                {| ma.Proto := ma.protoWEBTRANSPORT; ma.Value := "" |}] in
      isDecimal v 1234 = true /\
      toWebtransportMultiaddr (fun _ => "127.0.0.1"%string)
        (net.UDPAddr (net.IPv4 x7f x00 x00 x01) 1234 "") = Ok a /\
      existsb isCertHash a = false) /\
  (exists v,
      let a := [{| ma.Proto := ma.protoIP6ZONE; ma.Value := "eth0" |};
                {| ma.Proto := ma.protoIP6; ma.Value := "fe80::1" |}] ++
               [{| ma.Proto := ma.protoUDP; ma.Value := v |};
                {| ma.Proto := ma.protoQUIC; ma.Value := "" |};
                {| ma.Proto := ma.protoWEBTRANSPORT; ma.Value := "" |}] in
      isDecimal v 0 = true /\
      toWebtransportMultiaddr (fun _ => "fe80::1"%string)
        (net.UDPAddr linkLocal1 0 "eth0") = Ok a /\
      existsb isCertHash a = false) /\
  toWebtransportMultiaddr (fun _ => "fe80::1"%string)
    (net.UDPAddr linkLocal1 65536 "") = Err (errLib "incorrect network addr conversion") /\
  toWebtransportMultiaddr (fun _ => "fe80::1"%string)
    (net.UDPAddr linkLocal1 1234 "a/b") = Err (errLib "incorrect network addr conversion") /\
  exists e,
    toWebtransportMultiaddr (fun _ => "127.0.0.1"%string)
      (net.TCPAddr (net.IPv4 x7f x00 x00 x01) 1234 "") = Err e.
Proof.
  split; [|split; [|split; [|split]]].
  - apply (proj1 (toWebtransportMultiaddr_wellformed_udp_only
                    (fun _ => "127.0.0.1"%string))
                 (net.IPv4 x7f x00 x00 x01) 1234%N ""%string).
    + apply (host_ip4 (fun _ => "127.0.0.1"%string)).
    + reflexivity.
  - apply (proj1 (toWebtransportMultiaddr_wellformed_udp_only
                    (fun _ => "fe80::1"%string))
                 linkLocal1 0%N "eth0"%string).
    + apply (host_ip6zone (fun _ => "fe80::1"%string)).
      * reflexivity.
      * discriminate.
      * cbn. intros [H|[H|[H|[H|[]]]]]; discriminate H.
    + reflexivity.
  - apply (proj1 (proj2 (toWebtransportMultiaddr_wellformed_udp_only
                           (fun _ => "fe80::1"%string)))).
    right. discriminate.
  - apply (proj1 (proj2 (toWebtransportMultiaddr_wellformed_udp_only
                           (fun _ => "fe80::1"%string)))).
    left. intros host H. inversion H as [| |raw zone Hlen Hz Hc]; subst.
    apply Hc. cbn. tauto.
  - apply (proj2 (proj2 (toWebtransportMultiaddr_wellformed_udp_only
                           (fun _ => "127.0.0.1"%string)))).
    reflexivity.
Defined.

Lemma Multiaddr_reads_current_hashes_witness :
  let l := {| l_addr := net.UDPAddr (net.IPv4 x7f x00 x00 x01) 1234 "";
              l_multiaddr := localhost1234; l_certManager := 0 |} in
  let a := manet.comp ma.protoCERTHASH "uEiCcvAfD-ZFyWDajqipYHKICkZiqQgudmbwOEx2fPiy-Rw" in
  let b := manet.comp ma.protoCERTHASH "uEiDDq4_xNyDorZBH3TlGazyJdOWSwvo4PUo5YHFMrvDE8g" in
  Multiaddr l [Rotating a None] = Some (localhost1234 ++ [a]) /\
  Multiaddr l (rotateAt b 0 [Rotating a None]) = Some (localhost1234 ++ [a; b]).
Proof.
  intros l a b.
  destruct (Multiaddr_reads_current_hashes l [Rotating a None] (Rotating a None) eq_refl)
    as (H1 & H2 & _).
  split; [exact H1|exact (H2 b)].
Defined.

Lemma extractCertHashes_all_or_error_witness :
  extractCertHashes
    (localhost1234 ++
     [manet.comp ma.protoCERTHASH "zQmYtUc4iTCbbfVSDNKvtQqrfyezPPnFvE33wFmutw9PBBk";
      manet.comp ma.protoCERTHASH "uEiCcvAfD-ZFyWDajqipYHKICkZiqQgudmbwOEx2fPiy-Rw"])
  = Ok [ {| multihash.Code := multihash.SHA2_256; multihash.Name := "sha2-256";
            multihash.Length := 32; multihash.Digest := digest_multihash |};
         {| multihash.Code := multihash.SHA2_256; multihash.Name := "sha2-256";
            multihash.Length := 32; multihash.Digest := digest_multihash |} ] /\
  extractCertHashes
    (localhost1234 ++
     [manet.comp ma.protoCERTHASH "uEiCcvAfD-ZFyWDajqipYHKICkZiqQgudmbwOEx2fPiy-Rw";
      manet.comp ma.protoCERTHASH "zQm0"])
  = Err (errMultibaseDecode (errLib "invalid base58 digit")).
Proof.
  split.
  - apply (proj1 (extractCertHashes_all_or_error _)).
    repeat constructor.
    + exists multibase.Base58BTC, (x12 :: x20 :: digest_multihash).
      split; vm_compute; reflexivity.
    + exists multibase.Base64url, (x12 :: x20 :: digest_multihash).
      split; vm_compute; reflexivity.
  - apply (proj2 (extractCertHashes_all_or_error _)).
    eexists [_], _, [], [_]. split; [reflexivity|]. split.
    + repeat constructor.
      exists multibase.Base64url, (x12 :: x20 :: digest_multihash).
      split; vm_compute; reflexivity.
    + left. eexists. split; vm_compute; reflexivity.
Defined.



Lemma extractCertHashes_addrComponentForCert_witness :
  exists comp dh,
    addrComponentForCert digest_multihash = Ok comp /\
    extractCertHashes (ma.Encapsulate localhost1234 comp) = Ok [dh] /\
    multihash.Code dh = multihash.SHA2_256 /\
    multihash.Digest dh = digest_multihash.
Proof.
  apply (extractCertHashes_addrComponentForCert (MF := RefMultiformats)).
  - exact Ref_multihash_roundtrip.
  - exact Ref_multibase_roundtrip.
  - exact Ref_NewComponent_certhash.
  - intros c [<-|[<-|[<-|[<-|[]]]]]; discriminate.
Defined.

(** What the reference codecs produce for the digest of the multihash
    specification: the text handed to [NewComponent] is base58btc, and the
    component built from it reads back as the digest. *)
Example addrComponentForCert_digest_multihash :
  (mh <- multihash_Encode digest_multihash multihash.SHA2_256 ;;
   multibase_Encode multibase.Base58BTC mh)%result
  = Ok "zQmYtUc4iTCbbfVSDNKvtQqrfyezPPnFvE33wFmutw9PBBk"%string /\
  (comp <- addrComponentForCert digest_multihash ;;
   extractCertHashes (ma.Encapsulate localhost1234 comp))%result
  = Ok [ {| multihash.Code := multihash.SHA2_256; multihash.Name := "sha2-256";
            multihash.Length := 32; multihash.Digest := digest_multihash |} ].
Proof. split; vm_compute; reflexivity. Qed.

(** * Further properties *)

(** ** multiaddr.go *)

Section MoreCertHashes.

Context {MF : Multiformats}.

Local Open Scope result_scope.

Lemma decodeCertHashes_acc (ss : list string)
      (acc : list multihash.DecodedMultihash) :
  decodeCertHashes ss acc
  = (xs <- decodeCertHashes ss [] ;; Ok (acc ++ xs)).
Proof.
  revert acc. induction ss as [|s ss IH]; intros acc; cbn.
  - now rewrite app_nil_r.
  - destruct (multibase_Decode s) as [[e ch]|]; [|reflexivity].
    destruct (multihash_Decode ch) as [dh|]; [|reflexivity].
    rewrite (IH (acc ++ [dh])), (IH [dh]).
    destruct (decodeCertHashes ss []); cbn; [|reflexivity].
    now rewrite <- app_assoc.
Qed.

Lemma decodeCertHashes_app (ss1 ss2 : list string)
      (acc : list multihash.DecodedMultihash) :
  decodeCertHashes (ss1 ++ ss2) acc
  = (xs <- decodeCertHashes ss1 acc ;; decodeCertHashes ss2 xs).
Proof.
  revert acc. induction ss1 as [|s ss1 IH]; intros acc; cbn; [reflexivity|].
  destruct (multibase_Decode s) as [[e ch]|]; [|reflexivity].
  destruct (multihash_Decode ch) as [dh|]; [|reflexivity].
  apply IH.
Qed.

Lemma extractCertHashes_Encapsulate_eq (a b : ma.Multiaddr) :
  extractCertHashes (ma.Encapsulate a b)
  = (xs <- extractCertHashes a ;;
     ys <- extractCertHashes b ;;
     Ok (xs ++ ys)).
Proof.
  rewrite !extractCertHashes_unfold. unfold ma.Encapsulate.
  rewrite certHashValues_app, decodeCertHashes_app.
  destruct (decodeCertHashes (certHashValues a) []) as [xs|]; cbn; [|reflexivity].
  apply decodeCertHashes_acc.
Qed.

(** X1.  The hashes of an address followed by another are those of the
    first followed by those of the second; an error in the first address
    is the error of the whole, and an error in the second one is returned
    when the first address decodes. *)
Theorem extractCertHashes_Encapsulate (a b : ma.Multiaddr) :
  (forall xs ys,
      extractCertHashes a = Ok xs -> extractCertHashes b = Ok ys ->
      extractCertHashes (ma.Encapsulate a b) = Ok (xs ++ ys)) /\
  (forall e,
      extractCertHashes a = Err e ->
      extractCertHashes (ma.Encapsulate a b) = Err e) /\
  (forall xs e,
      extractCertHashes a = Ok xs -> extractCertHashes b = Err e ->
      extractCertHashes (ma.Encapsulate a b) = Err e).
Proof.
  repeat split; intros; rewrite extractCertHashes_Encapsulate_eq;
    repeat match goal with H : extractCertHashes _ = _ |- _ => rewrite H end;
    reflexivity.
Qed.

Lemma certHashValues_existsb (a : ma.Multiaddr) :
  existsb isCertHash a = false -> certHashValues a = [].
Proof.
  intros H. apply certHashValues_none. intros c Hc E.
  assert (X : existsb isCertHash a = true).
  { apply existsb_exists. exists c. split; [exact Hc|].
    unfold isCertHash, ma.hasCode. now rewrite E. }
  congruence.
Qed.

Lemma toWebtransportMultiaddr_no_certhash
      (IP_String : net.IP -> string) (na : net.Addr) (a : ma.Multiaddr) :
  toWebtransportMultiaddr IP_String na = Ok a ->
  existsb isCertHash a = false.
Proof.
  unfold toWebtransportMultiaddr.
  destruct (manet.FromNetAddr IP_String na) as [m|] eqn:E; [|discriminate].
  destruct (ma.ValueForProtocol _ _); [|discriminate].
  intros [= <-]. unfold ma.Encapsulate. rewrite existsb_app.
  destruct (FromNetAddr_codes _ _ _ E) as [Hc _].
  change (existsb isCertHash m = false) in Hc. rewrite Hc. reflexivity.
Qed.

(** X2.  The address [toWebtransportMultiaddr] builds carries no
    certificate hash: [extractCertHashes] returns the empty sequence for
    it, whatever the codecs. *)
Theorem extractCertHashes_of_listen_address
        (IP_String : net.IP -> string) (na : net.Addr) (a : ma.Multiaddr) :
  toWebtransportMultiaddr IP_String na = Ok a ->
  extractCertHashes a = Ok [].
Proof.
  intros H. rewrite extractCertHashes_unfold.
  rewrite certHashValues_existsb; [reflexivity|].
  now apply (toWebtransportMultiaddr_no_certhash IP_String na).
Qed.

(** The component of one digest, read back. *)
Lemma addrComponentForCert_reads_back (h : bytes) (comp : ma.Multiaddr) :
  multihash_roundtrip ->
  multibase_roundtrip ->
  NewComponent_certhash ->
  addrComponentForCert h = Ok comp ->
  exists dh,
    extractCertHashes comp = Ok [dh] /\
    multihash.Code dh = multihash.SHA2_256 /\
    multihash.Digest dh = h.
Proof.
  intros Hmh Hmb Hnc H.
  apply addrComponentForCert_unfold in H.
  destruct H as (mh & s & Emh & Emb & Enc).
  destruct (Hmh h) as (mh' & dh & Emh' & Dmh & Hcode & Hdig).
  rewrite Emh in Emh'. injection Emh' as <-.
  destruct (Hmb mh) as (s' & Emb' & Dmb).
  rewrite Emb in Emb'. injection Emb' as <-.
  destruct (Hnc s _ mh dh Dmb Dmh) as (c & e' & Enc' & Hc & Dc).
  rewrite Enc in Enc'. injection Enc' as ->.
  exists dh. repeat split; auto.
  rewrite extractCertHashes_unfold. unfold certHashValues. cbn.
  unfold isCertHash, ma.hasCode. rewrite Hc. cbn. now rewrite Dc, Dmh.
Qed.

(** X3.  When the codecs round-trip, the components built from a list
    of digests, encapsulated one after the other onto an address without
    certhash components, are read back as one multihash per digest, in
    the same order, each of code SHA2-256. *)
Theorem extractCertHashes_of_components
        (a : ma.Multiaddr) (hs : list bytes) (comps : list ma.Multiaddr) :
  multihash_roundtrip ->
  multibase_roundtrip ->
  NewComponent_certhash ->
  (forall c, In c a -> ma.Code (ma.Proto c) <> ma.P_CERTHASH) ->
  Forall2 (fun h comp => addrComponentForCert h = Ok comp) hs comps ->
  exists dhs,
    extractCertHashes (fold_left ma.Encapsulate comps a) = Ok dhs /\
    map multihash.Digest dhs = hs /\
    Forall (fun dh => multihash.Code dh = multihash.SHA2_256) dhs.
Proof.
  intros Hmh Hmb Hnc Ha F.
  assert (G : forall a0 xs,
             extractCertHashes a0 = Ok xs ->
             exists dhs,
               extractCertHashes (fold_left ma.Encapsulate comps a0)
               = Ok (xs ++ dhs) /\
               map multihash.Digest dhs = hs /\
               Forall (fun dh => multihash.Code dh = multihash.SHA2_256) dhs).
  { induction F as [|h comp hs comps Hc F IH]; intros a0 xs Ha0.
    - exists []. cbn. rewrite app_nil_r. auto.
    - destruct (addrComponentForCert_reads_back h comp Hmh Hmb Hnc Hc)
        as (dh & Ex & Hcode & Hdig).
      destruct (IH (ma.Encapsulate a0 comp) (xs ++ [dh])) as (dhs & E & M & C).
      + rewrite extractCertHashes_Encapsulate_eq, Ha0, Ex. reflexivity.
      + exists (dh :: dhs). cbn [fold_left map]. rewrite E, <- app_assoc.
        repeat split; [now rewrite Hdig, M|now constructor]. }
  destruct (G a []) as (dhs & E & M & C).
  - rewrite extractCertHashes_unfold, (certHashValues_none a Ha). reflexivity.
  - exists dhs. auto.
Qed.

(** X4.  When the codecs round-trip, two digests with the same certhash
    component are equal. *)
Theorem addrComponentForCert_injective (h1 h2 : bytes) (comp : ma.Multiaddr) :
  multihash_roundtrip ->
  multibase_roundtrip ->
  NewComponent_certhash ->
  addrComponentForCert h1 = Ok comp ->
  addrComponentForCert h2 = Ok comp ->
  h1 = h2.
Proof.
  intros Hmh Hmb Hnc H1 H2.
  destruct (addrComponentForCert_reads_back h1 comp Hmh Hmb Hnc H1)
    as (dh1 & E1 & _ & D1).
  destruct (addrComponentForCert_reads_back h2 comp Hmh Hmb Hnc H2)
    as (dh2 & E2 & _ & D2).
  rewrite E1 in E2. injection E2 as <-. congruence.
Qed.

End MoreCertHashes.

(** ** The listen address *)

Lemma ValueForProtocol_found (m : ma.Multiaddr) (code : Z) :
  existsb (ma.hasCode code) m = true ->
  exists v, ma.ValueForProtocol m code = Ok v.
Proof.
  induction m as [|c m IH]; cbn; [discriminate|].
  unfold ma.hasCode at 1. destruct (ma.Code (ma.Proto c) =? code)%Z; cbn.
  - eauto.
  - exact IH.
Qed.

(** X5.  The address built for a UDP endpoint is matched by
    [webtransportMatcher] when the endpoint is an IPv4 address or an IPv6
    address without zone; with an IPv6 zone the address begins with the
    ip6zone component of the zone and is not matched. *)
Theorem toWebtransportMultiaddr_matched
        (IP_String : net.IP -> string) (ip : net.IP) (port : N) (zone : string)
        (a : ma.Multiaddr) :
  toWebtransportMultiaddr IP_String (net.UDPAddr ip port zone) = Ok a ->
  mafmt.Matches webtransportMatcher a
  = match ip with
    | net.IPv4 _ _ _ _ => true
    | net.IPv6 _ => String.eqb zone ""
    end /\
  (mafmt.Matches webtransportMatcher a = false ->
   exists rest, a = manet.comp ma.protoIP6ZONE zone :: rest).
Proof.
  intros H. apply toWebtransportMultiaddr_UDPAddr in H.
  destruct H as (host & Hh & _ & ->).
  destruct Hh as [a b c d zone|raw Hlen|raw zone Hlen Hz Hc].
  - split; [reflexivity|discriminate].
  - split; [reflexivity|discriminate].
  - split.
    + destruct (String.eqb_spec zone "") as [->|_]; [contradiction|reflexivity].
    + intros _. eexists. reflexivity.
Qed.

(** X6.  The errors of [toWebtransportMultiaddr] for the endpoints that
    are not UDP endpoints: [unknown network] followed by the name for an
    address whose network go-multiaddr/net does not convert; [incorrect
    network addr conversion] for an address of another type under the name
    of a converted network; [not a UDP address] for the TCP, IP, IP network
    and Unix endpoints that are well formed. *)
Theorem toWebtransportMultiaddr_errors
        (IP_String : net.IP -> string) :
  (forall na,
      ~ In (net.Network na) convertedNetworks ->
      toWebtransportMultiaddr IP_String na
      = Err (errLib ("unknown network " ++ net.Network na))) /\
  (forall network,
      In network convertedNetworks ->
      toWebtransportMultiaddr IP_String (net.OtherAddr network)
      = Err (errLib "incorrect network addr conversion")) /\
  (forall ip port zone host,
      hostComponents IP_String ip zone host ->
      (port < 65536)%N ->
      toWebtransportMultiaddr IP_String (net.TCPAddr ip port zone)
      = Err errNotUDP) /\
  (forall ip zone host,
      hostComponents IP_String ip zone host ->
      toWebtransportMultiaddr IP_String (net.IPAddr ip zone) = Err errNotUDP) /\
  (forall ip host,
      hostComponents IP_String ip "" host ->
      toWebtransportMultiaddr IP_String (net.IPNet ip) = Err errNotUDP) /\
  (forall name,
      toWebtransportMultiaddr IP_String (net.UnixAddr name "unix")
      = Err errNotUDP).
Proof.
  refine (conj _ (conj _ (conj _ (conj _ (conj _ _))))).
  - intros na H. unfold toWebtransportMultiaddr, manet.FromNetAddr.
    now rewrite getAddrParser_unknown.
  - intros network H. cbn in H.
    repeat (destruct H as [<-|H]; [reflexivity|]). contradiction.
  - intros ip port zone host Hh Hp.
    apply (toWebtransportMultiaddr_not_UDP _ _
             (host ++ [manet.comp ma.protoTCP (manet.itoa port)]));
      [|reflexivity].
    cbn. apply FromIPAndZone_Ok in Hh. rewrite Hh.
    unfold manet.portMultiaddr.
    destruct (N.leb_spec 65536 port); [lia|reflexivity].
  - intros ip zone host Hh.
    apply (toWebtransportMultiaddr_not_UDP _ _ host); [|reflexivity].
    cbn. now apply FromIPAndZone_Ok.
  - intros ip host Hh.
    apply (toWebtransportMultiaddr_not_UDP _ _ host); [|reflexivity].
    cbn. now apply FromIPAndZone_Ok.
  - intros name.
    eapply toWebtransportMultiaddr_not_UDP; reflexivity.
Qed.


(** ** The helpers of transport_test.go *)

Lemma test_extractCertHashes_values (addr : ma.Multiaddr) :
  transport_test.extractCertHashes addr
  = map ma.Value (filter isCertHash addr).
Proof.
  unfold transport_test.extractCertHashes.
  assert (G : forall acc,
             ma.ForEach addr
               (fun c certHashesStr =>
                  if (ma.Code (ma.Proto c) =? ma.P_CERTHASH)%Z
                  then (true, certHashesStr ++ [ma.Value c])
                  else (true, certHashesStr)) acc
             = acc ++ map ma.Value (filter isCertHash addr)).
  { induction addr as [|c a IH]; intros acc; cbn.
    - now rewrite app_nil_r.
    - unfold isCertHash, ma.hasCode.
      destruct (ma.Code (ma.Proto c) =? ma.P_CERTHASH)%Z; cbn.
      + rewrite IH, <- app_assoc. reflexivity.
      + apply IH. }
  apply G.
Qed.

Lemma SplitLast_snoc (m : ma.Multiaddr) (c : ma.Component) :
  ma.SplitLast (m ++ [c]) = (m, [c]).
Proof.
  unfold ma.SplitLast. rewrite rev_app_distr. cbn. now rewrite rev_involutive.
Qed.

Lemma beforeCertHash_split (a : ma.Multiaddr) :
  existsb isCertHash a = true ->
  exists c rest,
    a = beforeCertHash a ++ c :: rest /\ isCertHash c = true.
Proof.
  induction a as [|d a IH]; cbn; [discriminate|].
  destruct (isCertHash d) eqn:Ed; cbn.
  - intros _. now exists d, a.
  - intros H. destruct (IH H) as (c & rest & E & Hc).
    exists c, rest. split; [now f_equal|exact Hc].
Qed.

Lemma beforeCertHash_free (a : ma.Multiaddr) :
  existsb isCertHash (beforeCertHash a) = false.
Proof.
  induction a as [|d a IH]; cbn; [reflexivity|].
  destruct (isCertHash d) eqn:Ed; cbn; [reflexivity|].
  now rewrite Ed.
Qed.

Lemma beforeCertHash_none (a : ma.Multiaddr) :
  existsb isCertHash a = false -> beforeCertHash a = a.
Proof.
  induction a as [|d a IH]; cbn; [reflexivity|].
  destruct (isCertHash d); cbn; [discriminate|].
  intros H. now rewrite IH.
Qed.

Lemma stripCertHashes_loop_free (fuel : nat) (p : ma.Multiaddr) :
  existsb isCertHash p = false ->
  transport_test.stripCertHashes_loop (S fuel) p
  = Some (transport_test.Returned p).
Proof.
  intros H. cbn.
  destruct (ValueForProtocol_none p ma.P_CERTHASH H) as [e ->]. reflexivity.
Qed.

Lemma match_nonempty {A B : Type} (l : list A) (x y : B) :
  l <> [] -> match l with [] => x | _ :: _ => y end = y.
Proof. destruct l; [contradiction|reflexivity]. Qed.

(** The loop on an address with a certhash component. *)
Lemma stripCertHashes_loop_strips (p : ma.Multiaddr) (c : ma.Component)
      (rest : ma.Multiaddr) :
  existsb isCertHash p = false ->
  isCertHash c = true ->
  forall fuel,
    List.length (p ++ c :: rest) < fuel ->
    transport_test.stripCertHashes_loop fuel (p ++ c :: rest)
    = Some (match p with
            | [] => transport_test.Panicked
            | _ :: _ => transport_test.Returned p
            end).
Proof.
  intros Hp Hc.
  induction rest as [|x rest IH] using rev_ind; intros fuel Hfuel.
  - destruct fuel as [|fuel]; [lia|]. cbn [transport_test.stripCertHashes_loop].
    destruct (ValueForProtocol_found (p ++ [c]) ma.P_CERTHASH) as [v ->].
    { rewrite existsb_app. cbn. unfold isCertHash in Hc. rewrite Hc.
      now rewrite orb_true_r. }
    rewrite SplitLast_snoc. destruct p as [|d p]; [reflexivity|].
    rewrite length_app in Hfuel. cbn in Hfuel.
    destruct fuel as [|fuel]; [lia|].
    now apply stripCertHashes_loop_free.
  - destruct fuel as [|fuel]; [lia|]. cbn [transport_test.stripCertHashes_loop].
    destruct (ValueForProtocol_found (p ++ c :: rest ++ [x]) ma.P_CERTHASH)
      as [v ->].
    { rewrite existsb_app. cbn. unfold isCertHash in Hc. rewrite Hc.
      now rewrite orb_true_r. }
    change (p ++ c :: rest ++ [x]) with (p ++ (c :: rest) ++ [x]).
    rewrite app_assoc, SplitLast_snoc.
    rewrite match_nonempty by (destruct p; discriminate).
    apply IH.
    rewrite !length_app in *. cbn in *. rewrite length_app in Hfuel. cbn in Hfuel.
    lia.
Qed.

Lemma stripCertHashes_outcome (addr : ma.Multiaddr) :
  transport_test.stripCertHashes addr
  = Some (if existsb isCertHash addr
          then match beforeCertHash addr with
               | [] => transport_test.Panicked
               | _ :: _ => transport_test.Returned (beforeCertHash addr)
               end
          else transport_test.Returned addr).
Proof.
  unfold transport_test.stripCertHashes.
  destruct (existsb isCertHash addr) eqn:E.
  - destruct (beforeCertHash_split addr E) as (c & rest & Ea & Hc).
    pose proof (beforeCertHash_free addr) as Hf.
    set (p := beforeCertHash addr) in *. clearbody p. subst addr.
    rewrite (stripCertHashes_loop_strips p c rest Hf Hc) by lia.
    reflexivity.
  - now apply stripCertHashes_loop_free.
Qed.

(** X8.  [stripCertHashes] ends on every address.  Without a certhash
    component the address is returned as it is; otherwise what is returned
    is the part in front of the first certhash component, everything behind
    it included in what is cut; and when the address begins with a
    certhash component the call ends in the nil dereference. *)
Theorem stripCertHashes_cuts_at_first_certhash (addr : ma.Multiaddr) :
  (existsb isCertHash addr = false ->
   transport_test.stripCertHashes addr = Some (transport_test.Returned addr)) /\
  (existsb isCertHash addr = true -> beforeCertHash addr <> [] ->
   transport_test.stripCertHashes addr
   = Some (transport_test.Returned (beforeCertHash addr))) /\
  (existsb isCertHash addr = true -> beforeCertHash addr = [] ->
   transport_test.stripCertHashes addr = Some transport_test.Panicked).
Proof.
  rewrite stripCertHashes_outcome. repeat split.
  - now intros ->.
  - intros -> H. destruct (beforeCertHash addr); [contradiction|reflexivity].
  - now intros -> ->.
Qed.

Lemma beforeCertHash_app (base hashes : ma.Multiaddr) :
  existsb isCertHash base = false ->
  Forall (fun c => isCertHash c = true) hashes ->
  beforeCertHash (base ++ hashes) = base.
Proof.
  intros Hb Hh. induction base as [|d base IH]; cbn in *.
  - destruct Hh as [|c hashes Hc _]; cbn; [reflexivity|now rewrite Hc].
  - destruct (isCertHash d); cbn in *; [discriminate|].
    now rewrite IH.
Qed.

(** X9.  Stripping the hashes from a listen address followed by
    certhash components gives the listen address back. *)
Theorem stripCertHashes_of_advertised_address
        (IP_String : net.IP -> string) (na : net.Addr)
        (base hashes : ma.Multiaddr) :
  toWebtransportMultiaddr IP_String na = Ok base ->
  Forall (fun c => isCertHash c = true) hashes ->
  transport_test.stripCertHashes (ma.Encapsulate base hashes)
  = Some (transport_test.Returned base).
Proof.
  intros Hb Hh.
  pose proof (toWebtransportMultiaddr_no_certhash IP_String na base Hb) as Hfree.
  assert (Hne : base <> []).
  { unfold toWebtransportMultiaddr in Hb.
    destruct (manet.FromNetAddr IP_String na); [|discriminate].
    destruct (ma.ValueForProtocol _ _); [|discriminate].
    injection Hb as <-. unfold ma.Encapsulate, webtransportMA.
    intros E. apply app_eq_nil in E. destruct E; discriminate. }
  rewrite stripCertHashes_outcome. unfold ma.Encapsulate.
  rewrite existsb_app, Hfree, (beforeCertHash_app base hashes Hfree Hh). cbn.
  destruct (existsb isCertHash hashes) eqn:E.
  - destruct base; [contradiction|reflexivity].
  - destruct hashes as [|c hashes]; [now rewrite app_nil_r|].
    inversion Hh as [|? ? Hc _]; subst. cbn in E. now rewrite Hc in E.
Qed.

(** X10.  The address [stripCertHashes] returns is a prefix of its
    argument in which the helper [extractCertHashes] finds no hash. *)
Theorem stripCertHashes_leaves_no_hash (addr r : ma.Multiaddr) :
  transport_test.stripCertHashes addr = Some (transport_test.Returned r) ->
  transport_test.extractCertHashes r = [] /\
  exists rest, addr = r ++ rest.
Proof.
  rewrite stripCertHashes_outcome, test_extractCertHashes_values.
  destruct (existsb isCertHash addr) eqn:E.
  - destruct (beforeCertHash addr) as [|d m] eqn:Eb; [discriminate|].
    intros [= <-]. split.
    + pose proof (beforeCertHash_free addr) as F. rewrite Eb in F.
      clear -F. induction (d :: m) as [|c l IH]; cbn in *; [reflexivity|].
      destruct (isCertHash c); cbn in *; [discriminate|auto].
    + destruct (beforeCertHash_split addr E) as (c & rest & Ea & _).
      rewrite Eb in Ea. now exists (c :: rest).
  - intros [= <-]. split.
    + clear -E. induction addr as [|c l IH]; cbn in *; [reflexivity|].
      destruct (isCertHash c); cbn in *; [discriminate|auto].
    + exists []. now rewrite app_nil_r.
Qed.

(** X16.  [webtransportMatcher] matches exactly the addresses of four
    components: ip4 or ip6, udp, quic, webtransport.  Any further
    component, a certhash or an sni component between the markers among
    them, makes the match fail. *)
Theorem webtransportMatcher_exact (a : ma.Multiaddr) :
  mafmt.Matches webtransportMatcher a = true <->
  exists c1 c2 c3 c4,
    a = [c1; c2; c3; c4] /\
    (ma.Code (ma.Proto c1) = ma.P_IP4 \/ ma.Code (ma.Proto c1) = ma.P_IP6) /\
    ma.Code (ma.Proto c2) = ma.P_UDP /\
    ma.Code (ma.Proto c3) = ma.P_QUIC /\
    ma.Code (ma.Proto c4) = ma.P_WEBTRANSPORT.
Proof. apply webtransportMatcher_Matches. Qed.

(** ** The accept pipeline *)

Section MoreListener.

Variable w : World.

Ltac step_cases s H :=
  destruct s;
  unfold step, upgradeHandler, upgradeHandlerReturn, AcceptEnter, AcceptNext,
    handshakeGoroutine, serveReturn, CloseNext, accept_return, set_pc in H;
  cbn [ctxDone lqueue lsenders waiting call pc popped workers
       results rsenders orphans closedSessions returns
       serverClosedChan serverShut cpc] in *;
  repeat match type of H with
         | context [match ?x with _ => _ end] => destruct x eqn:?; try discriminate
         end;
  injection H as <-; cbn [ctxDone lqueue lsenders waiting call pc popped workers
                          results rsenders orphans closedSessions returns
                          serverClosedChan serverShut cpc] in *.

Ltac chan_cases :=
  repeat match goal with
         | E : chan_send _ _ _ = _ |- _ =>
             apply chan_send_cases in E;
             destruct E as [(? & -> & ->)|(? & -> & ->)]
         | E : chan_recv _ _ = _ |- _ =>
             apply chan_recv_cases in E;
             let Eq := fresh "Eq" in
             let Ep := fresh "Ep" in
             destruct E as (? & Eq & [(Ep & -> & ->)|(? & Ep & ->)])
         end; subst; try discriminate;
  repeat match goal with
         | E : _ :: _ = _ :: _ |- _ => injection E as ? ?; subst
         end.


(** X11.  The raw-accept callback drops no session: along every
    schedule the upgraded sessions, in the order of arrival, are the ones
    [Accept] has received, then the buffered ones, then the ones whose
    handler is parked on the send; and a handler is parked only while the
    buffer holds [queueLen] sessions. *)
Theorem callback_never_drops_a_session (es : list event) (s : State) :
  run w initial es = Some s ->
  upgraded es = popped s ++ lqueue s ++ lsenders s /\
  (lsenders s = [] \/ List.length (lqueue s) = queueLen).
Proof.
  intros Hrun.
  assert (Hq : queue_inv initial)
    by (split; cbn; [unfold queueLen; lia|now left]).
  destruct (run_fifo w es initial s Hq Hrun) as [[_ Hpark] Hf].
  split; [now rewrite Hf|exact Hpark].
Qed.



Lemma closed_failed_step (s : State) (e : event) (s' : State) :
  (forall k c, In (k, c) (workers s) -> In c (popped s)) ->
  (forall c, In c (closedSessions s) ->
             In c (popped s) /\ exists err, handshake w c = Err err) ->
  step w s e = Some s' ->
  (forall k c, In (k, c) (workers s') -> In c (popped s')) /\
  (forall c, In c (closedSessions s') ->
             In c (popped s') /\ exists err, handshake w c = Err err).
Proof.
  intros Hw Hc H.
  step_cases s H; chan_cases;
    repeat match goal with
           | E : remove_worker _ _ = Some _ |- _ =>
               apply remove_worker_cases in E; destruct E as (? & ? & ?)
           end.
  all: split; intros; auto.
  all: repeat match goal with
              | H : In _ (_ ++ _) |- _ => apply in_app_or in H; destruct H
              | H : In _ [_] |- _ => destruct H as [H|[]]
              | H : (_, _) = (_, _) |- _ => injection H as ? ?
              end; subst.
  all: rewrite ?in_app_iff; cbn [In]; eauto.
  all: try (destruct (Hc _ ltac:(eassumption)) as [? ?]; split; eauto;
            rewrite ?in_app_iff; eauto; fail).
  all: try (split; [eapply Hw; eassumption|eauto]).
Qed.

(** X13.  The accept path closes a session only after it was received
    from the queue and its handshake failed; a session whose handshake
    succeeds is never closed by it. *)
Theorem listener_closes_only_failed_sessions (es : list event) (s : State) :
  run w initial es = Some s ->
  forall c, In c (closedSessions s) ->
            In c (popped s) /\ exists err, handshake w c = Err err.
Proof.
  intros Hrun.
  assert (G : (forall k c, In (k, c) (workers s) -> In c (popped s)) /\
              (forall c, In c (closedSessions s) ->
                         In c (popped s) /\ exists err, handshake w c = Err err)).
  { revert es s Hrun. apply run_invariant.
    - split; cbn; intros; contradiction.
    - intros s e s' [H1 H2]. now apply closed_failed_step. }
  apply G.
Qed.

Lemma drained_step (s : State) (e : event) (s' : State) :
  drained s -> upgraded [e] = [] -> step w s e = Some s' ->
  drained s' /\ orphans s' = orphans s /\
  closedSessions s' = closedSessions s /\ popped s' = popped s /\
  exists l, returns s' = l ++ returns s /\ allClosed l.
Proof.
  unfold drained, allClosed. intros (H1 & H2 & H3 & H4 & H5) Hup H.
  step_cases s H; subst; cbn in *; try discriminate.
  all: repeat match goal with
              | E : chan_send _ _ _ = _ |- _ => cbn in E; injection E as <- <-
              end.
  all: rewrite ?app_nil_r.
  all: repeat split; auto.
  all: first [ now exists []
             | match goal with
               | |- exists l, ?x :: ?r = l ++ ?r /\ _ =>
                   exists [x]; split; [reflexivity|repeat constructor]
               end ].
Qed.

Lemma drained_run (es : list event) :
  forall s s',
    drained s -> upgraded es = [] -> run w s es = Some s' ->
    drained s' /\ orphans s' = orphans s /\
    closedSessions s' = closedSessions s /\ popped s' = popped s /\
    exists l, returns s' = l ++ returns s /\ allClosed l.
Proof.
  induction es as [|e es IH]; intros s s' Hd Hup; cbn [run].
  - intros [= <-]. split; [exact Hd|]. repeat split.
    exists []. split; [reflexivity|constructor].
  - destruct (step w s e) as [s1|] eqn:E; [|discriminate]. intros Hrun.
    assert (Hup1 : upgraded [e] = [] /\ upgraded es = []).
    { destruct e; cbn in *; try discriminate; auto. }
    destruct Hup1 as [Hup1 Hup2].
    destruct (drained_step s e s1 Hd Hup1 E) as (Hd1 & Ho1 & Hc1 & Hp1 & l1 & Hr1 & Hl1).
    destruct (IH s1 s' Hd1 Hup2 Hrun) as (Hd2 & Ho2 & Hc2 & Hp2 & l2 & Hr2 & Hl2).
    split; [exact Hd2|]. repeat split; try congruence.
    exists (l2 ++ l1). split.
    + now rewrite Hr2, Hr1, app_assoc.
    + now apply Forall_app.
Qed.

(** X14.  The results channel belongs to one call of [Accept]: when a
    call returns a connection while the handshake of another session it
    received is still running, the connection of that session is never
    returned and the session is never closed, whatever happens next, as
    long as no new session arrives; later calls return [errClosed] only. *)
Theorem connection_after_return_is_stranded
        (c1 c2 : Session) (conn1 conn2 : CapableConn)
        (es : list event) (s : State) :
  handshake w c1 = Ok conn1 ->
  handshake w c2 = Ok conn2 ->
  upgraded es = [] ->
  run w initial (returnsBeforeSecondHandshake c1 c2 ++ es) = Some s ->
  orphans s = [conn2] /\
  closedSessions s = [] /\
  exists l, returns s = l ++ [(1, Ok conn1)] /\ allClosed l.
Proof.
  intros H1 H2 Hup. rewrite run_app.
  assert (E : exists s0,
             run w initial (returnsBeforeSecondHandshake c1 c2) = Some s0 /\
             drained s0 /\ orphans s0 = [conn2] /\ closedSessions s0 = [] /\
             returns s0 = [(1, Ok conn1)]).
  { eexists. split.
    - cbn. unfold handshakeGoroutine. cbn. rewrite Nat.eqb_refl, H1. cbn.
      unfold handshakeGoroutine. cbn. rewrite Nat.eqb_refl, H2. cbn.
      reflexivity.
    - repeat split. }
  destruct E as (s0 & -> & Hd & Ho & Hc & Hr). intros Hrun.
  destruct (drained_run es s0 s Hd Hup Hrun) as (_ & Ho' & Hc' & _ & l & Hr' & Hl).
  repeat split; try congruence.
  exists l. split; [congruence|exact Hl].
Qed.

Lemma cancelled_step (s : State) (e : event) (s' : State) :
  ctxDone s = true -> pc s <> AtSelect -> isAcceptMove e = true ->
  step w s e = Some s' ->
  (ctxDone s' = true /\ pc s' <> AtSelect) /\
  lqueue s' = lqueue s /\ lsenders s' = lsenders s /\
  popped s' = popped s /\ workers s' = workers s /\
  closedSessions s' = closedSessions s /\
  exists l, returns s' = l ++ returns s /\ allClosed l.
Proof.
  unfold allClosed. intros Hd Hpc He H.
  destruct e; try discriminate.
  - step_cases s H; repeat split; auto; try discriminate. now exists [].
  - step_cases s H; repeat split; auto; try discriminate; try congruence.
    all: match goal with
         | |- exists l, ?x :: ?r = l ++ ?r /\ _ =>
             exists [x]; split; [reflexivity|repeat constructor]
         end.
Qed.

(** X15.  Once the context is cancelled, calls of [Accept] that are not
    already at their second select receive nothing from the queue: the
    queued and parked sessions stay where they are, none is handed to a
    handshake or closed, and every return is [errClosed]. *)
Theorem cancelled_listener_leaves_queue (s : State) (es : list event) (s' : State) :
  ctxDone s = true ->
  pc s <> AtSelect ->
  forallb isAcceptMove es = true ->
  run w s es = Some s' ->
  lqueue s' = lqueue s /\ lsenders s' = lsenders s /\
  popped s' = popped s /\ workers s' = workers s /\
  closedSessions s' = closedSessions s /\
  exists l, returns s' = l ++ returns s /\ allClosed l.
Proof.
  revert s. induction es as [|e es IH]; intros s Hd Hpc Hes; cbn [run].
  - intros [= <-]. repeat split; auto. exists []. split; [reflexivity|constructor].
  - cbn in Hes. apply andb_prop in Hes. destruct Hes as [He Hes].
    destruct (step w s e) as [s1|] eqn:E; [|discriminate]. intros Hrun.
    destruct (cancelled_step s e s1 Hd Hpc He E)
      as ((Hd1 & Hpc1) & Q1 & S1 & P1 & W1 & C1 & l1 & R1 & L1).
    destruct (IH s1 Hd1 Hpc1 Hes Hrun) as (Q2 & S2 & P2 & W2 & C2 & l2 & R2 & L2).
    repeat split; try congruence.
    exists (l2 ++ l1). split.
    + now rewrite R2, R1, app_assoc.
    + now apply Forall_app.
Qed.

End MoreListener.

(** ** The further properties at concrete inputs *)

Lemma extractCertHashes_Encapsulate_witness :
  extractCertHashes
    (ma.Encapsulate
       (localhost1234 ++
        [manet.comp ma.protoCERTHASH "zQmYtUc4iTCbbfVSDNKvtQqrfyezPPnFvE33wFmutw9PBBk"])
       [manet.comp ma.protoCERTHASH "uEiCcvAfD-ZFyWDajqipYHKICkZiqQgudmbwOEx2fPiy-Rw"])
  = Ok ([ {| multihash.Code := multihash.SHA2_256; multihash.Name := "sha2-256";
             multihash.Length := 32; multihash.Digest := digest_multihash |} ] ++
        [ {| multihash.Code := multihash.SHA2_256; multihash.Name := "sha2-256";
             multihash.Length := 32; multihash.Digest := digest_multihash |} ]) /\
  extractCertHashes
    (ma.Encapsulate [manet.comp ma.protoCERTHASH "zQm0"]
       [manet.comp ma.protoCERTHASH "uEiCcvAfD-ZFyWDajqipYHKICkZiqQgudmbwOEx2fPiy-Rw"])
  = Err (errMultibaseDecode (errLib "invalid base58 digit")).
Proof.
  split.
  - apply (proj1 (extractCertHashes_Encapsulate _ _)); vm_compute; reflexivity.
  - apply (proj1 (proj2 (extractCertHashes_Encapsulate _ _))).
    vm_compute; reflexivity.
Defined.

Lemma extractCertHashes_of_listen_address_witness :
  extractCertHashes localhost1234 = Ok [].
Proof.
  apply (extractCertHashes_of_listen_address (fun _ => "127.0.0.1"%string)
           (net.UDPAddr (net.IPv4 x7f x00 x00 x01) 1234 "")).
  reflexivity.
Defined.

Lemma extractCertHashes_of_components_witness :
  exists dhs,
    extractCertHashes
      (fold_left ma.Encapsulate
         [[manet.comp ma.protoCERTHASH "uEiCcvAfD-ZFyWDajqipYHKICkZiqQgudmbwOEx2fPiy-Rw"];
          [manet.comp ma.protoCERTHASH "uEiAAAAAAAAAAAAAAAAAAAAAAAAAAAAAAAAAAAAAAAAAAAA"]]
         localhost1234)
    = Ok dhs /\
    map multihash.Digest dhs = [digest_multihash; repeat x00 32] /\
    Forall (fun dh => multihash.Code dh = multihash.SHA2_256) dhs.
Proof.
  apply (extractCertHashes_of_components (MF := RefMultiformats)).
  - exact Ref_multihash_roundtrip.
  - exact Ref_multibase_roundtrip.
  - exact Ref_NewComponent_certhash.
  - intros c [<-|[<-|[<-|[<-|[]]]]]; discriminate.
  - repeat constructor; vm_compute; reflexivity.
Defined.

Lemma addrComponentForCert_injective_witness :
  addrComponentForCert digest_multihash
  = Ok [manet.comp ma.protoCERTHASH "uEiCcvAfD-ZFyWDajqipYHKICkZiqQgudmbwOEx2fPiy-Rw"] /\
  digest_multihash = digest_multihash.
Proof.
  split; [vm_compute; reflexivity|].
  apply (addrComponentForCert_injective (MF := RefMultiformats)
           digest_multihash digest_multihash
           [manet.comp ma.protoCERTHASH "uEiCcvAfD-ZFyWDajqipYHKICkZiqQgudmbwOEx2fPiy-Rw"]).
  - exact Ref_multihash_roundtrip.
  - exact Ref_multibase_roundtrip.
  - exact Ref_NewComponent_certhash.
  - vm_compute. reflexivity.
  - vm_compute. reflexivity.
Defined.

Lemma toWebtransportMultiaddr_matched_witness :
  (mafmt.Matches webtransportMatcher localhost1234 = true /\
   (mafmt.Matches webtransportMatcher localhost1234 = false ->
    exists rest, localhost1234 = manet.comp ma.protoIP6ZONE "" :: rest)) /\
  (mafmt.Matches webtransportMatcher
     ([manet.comp ma.protoIP6ZONE "eth0"; manet.comp ma.protoIP6 "fe80::1";
       manet.comp ma.protoUDP "1234"] ++ webtransportMA) = false /\
   (mafmt.Matches webtransportMatcher
      ([manet.comp ma.protoIP6ZONE "eth0"; manet.comp ma.protoIP6 "fe80::1";
        manet.comp ma.protoUDP "1234"] ++ webtransportMA) = false ->
    exists rest,
      [manet.comp ma.protoIP6ZONE "eth0"; manet.comp ma.protoIP6 "fe80::1";
       manet.comp ma.protoUDP "1234"] ++ webtransportMA
      = manet.comp ma.protoIP6ZONE "eth0" :: rest)).
Proof.
  split.
  - apply (toWebtransportMultiaddr_matched (fun _ => "127.0.0.1"%string)
             (net.IPv4 x7f x00 x00 x01) 1234 "" localhost1234).
    reflexivity.
  - apply (toWebtransportMultiaddr_matched (fun _ => "fe80::1"%string)
             linkLocal1 1234 "eth0").
    reflexivity.
Defined.

Lemma toWebtransportMultiaddr_errors_witness :
  toWebtransportMultiaddr (fun _ => "127.0.0.1"%string) (net.OtherAddr "pipe")
  = Err (errLib "unknown network pipe") /\
  toWebtransportMultiaddr (fun _ => "127.0.0.1"%string)
    (net.UnixAddr "/tmp/sock" "unixgram")
  = Err (errLib "unknown network unixgram") /\
  toWebtransportMultiaddr (fun _ => "127.0.0.1"%string) (net.OtherAddr "udp4")
  = Err (errLib "incorrect network addr conversion") /\
  toWebtransportMultiaddr (fun _ => "127.0.0.1"%string)
    (net.TCPAddr (net.IPv4 x7f x00 x00 x01) 1234 "") = Err errNotUDP.
Proof.
  destruct (toWebtransportMultiaddr_errors (fun _ => "127.0.0.1"%string))
    as (Hunknown & Hforeign & Htcp & _).
  split; [|split; [|split]].
  - apply (Hunknown (net.OtherAddr "pipe")).
    intros H. cbn in H. repeat (destruct H as [H|H]; [discriminate H|]).
    exact H.
  - apply (Hunknown (net.UnixAddr "/tmp/sock" "unixgram")).
    intros H. cbn in H. repeat (destruct H as [H|H]; [discriminate H|]).
    exact H.
  - apply Hforeign. cbn. tauto.
  - apply (Htcp _ _ _ _ (host_ip4 _ x7f x00 x00 x01 "")). reflexivity.
Defined.


Lemma stripCertHashes_cuts_at_first_certhash_witness :
  transport_test.stripCertHashes localhost1234
  = Some (transport_test.Returned localhost1234) /\
  transport_test.stripCertHashes
    (localhost1234 ++
     [manet.comp ma.protoCERTHASH "a"; manet.comp ma.protoSNI "example.com"])
  = Some (transport_test.Returned localhost1234) /\
  transport_test.stripCertHashes
    ([manet.comp ma.protoCERTHASH "a"] ++ localhost1234)
  = Some transport_test.Panicked.
Proof.
  split; [|split].
  - apply (proj1 (stripCertHashes_cuts_at_first_certhash _)). reflexivity.
  - apply (proj1 (proj2 (stripCertHashes_cuts_at_first_certhash
             (localhost1234 ++
              [manet.comp ma.protoCERTHASH "a";
               manet.comp ma.protoSNI "example.com"])))).
    + reflexivity.
    + discriminate.
  - apply (proj2 (proj2 (stripCertHashes_cuts_at_first_certhash _)));
      reflexivity.
Defined.

Lemma stripCertHashes_of_advertised_address_witness :
  transport_test.stripCertHashes
    (ma.Encapsulate localhost1234
       [manet.comp ma.protoCERTHASH "uEiCcvAfD-ZFyWDajqipYHKICkZiqQgudmbwOEx2fPiy-Rw";
        manet.comp ma.protoCERTHASH "uEiAAAAAAAAAAAAAAAAAAAAAAAAAAAAAAAAAAAAAAAAAAAA"])
  = Some (transport_test.Returned localhost1234).
Proof.
  apply (stripCertHashes_of_advertised_address (fun _ => "127.0.0.1"%string)
           (net.UDPAddr (net.IPv4 x7f x00 x00 x01) 1234 "")).
  - reflexivity.
  - repeat constructor.
Defined.

Lemma stripCertHashes_leaves_no_hash_witness :
  transport_test.extractCertHashes localhost1234 = [] /\
  exists rest,
    localhost1234 ++ [manet.comp ma.protoCERTHASH "a"] = localhost1234 ++ rest.
Proof.
  apply (stripCertHashes_leaves_no_hash
           (localhost1234 ++ [manet.comp ma.protoCERTHASH "a"]) localhost1234).
  reflexivity.
Defined.

Lemma webtransportMatcher_exact_witness :
  exists c1 c2 c3 c4,
    localhost1234 = [c1; c2; c3; c4] /\
    (ma.Code (ma.Proto c1) = ma.P_IP4 \/ ma.Code (ma.Proto c1) = ma.P_IP6) /\
    ma.Code (ma.Proto c2) = ma.P_UDP /\
    ma.Code (ma.Proto c3) = ma.P_QUIC /\
    ma.Code (ma.Proto c4) = ma.P_WEBTRANSPORT.
Proof.
  apply (proj1 (webtransportMatcher_exact localhost1234)). reflexivity.
Defined.

Lemma callback_never_drops_a_session_witness :
  exists s,
    run openWorld initial
        (map EvUpgrade (seq 1 18) ++
         [EvAcceptCall; EvAccept PickDone; EvAccept PickQueue])
    = Some s /\
    popped s = [1] /\ lqueue s = seq 2 16 /\ lsenders s = [18] /\
    upgraded (map EvUpgrade (seq 1 18) ++
              [EvAcceptCall; EvAccept PickDone; EvAccept PickQueue])
    = popped s ++ lqueue s ++ lsenders s /\
    (lsenders s = [] \/ List.length (lqueue s) = queueLen).
Proof.
  eexists. split; [vm_compute; reflexivity|].
  split; [reflexivity|]. split; [reflexivity|]. split; [reflexivity|].
  refine (callback_never_drops_a_session openWorld
    (map EvUpgrade (seq 1 18) ++
     [EvAcceptCall; EvAccept PickDone; EvAccept PickQueue]) _ _).
  vm_compute. reflexivity.
Defined.


Lemma listener_closes_only_failed_sessions_witness :
  exists s,
    run stalledWorld initial
        [EvUpgrade 1; EvUpgrade 2; EvAcceptCall; EvAccept PickDone;
         EvAccept PickQueue; EvAccept PickDone; EvAccept PickQueue;
         EvHandshake 2; EvHandshake 1]
    = Some s /\
    closedSessions s = [1] /\
    In 1 (popped s) /\ exists err, handshake stalledWorld 1 = Err err.
Proof.
  eexists. split; [vm_compute; reflexivity|].
  split; [reflexivity|].
  refine (listener_closes_only_failed_sessions stalledWorld
    [EvUpgrade 1; EvUpgrade 2; EvAcceptCall; EvAccept PickDone;
     EvAccept PickQueue; EvAccept PickDone; EvAccept PickQueue;
     EvHandshake 2; EvHandshake 1] _ _ 1 _).
  - vm_compute. reflexivity.
  - now left.
Defined.

Lemma connection_after_return_is_stranded_witness :
  exists s,
    run openWorld initial
        (returnsBeforeSecondHandshake 1 2 ++
         [EvAcceptCall; EvAccept PickDone; EvCloseStep; EvAccept PickDone])
    = Some s /\
    orphans s = [{| connSession := 2; connLocalKey := 0; connRemoteKey := 2 |}] /\
    closedSessions s = [] /\
    exists l,
      returns s
      = l ++ [(1, Ok {| connSession := 1; connLocalKey := 0; connRemoteKey := 1 |})] /\
      allClosed l.
Proof.
  eexists. split; [vm_compute; reflexivity|].
  refine (connection_after_return_is_stranded openWorld 1 2 _ _
    [EvAcceptCall; EvAccept PickDone; EvCloseStep; EvAccept PickDone] _ _ _ _ _).
  - reflexivity.
  - reflexivity.
  - reflexivity.
  - vm_compute. reflexivity.
Defined.

Lemma cancelled_listener_leaves_queue_witness :
  exists s s',
    run openWorld initial [EvUpgrade 1; EvUpgrade 2; EvCloseStep] = Some s /\
    run openWorld s [EvAcceptCall; EvAccept PickQueue; EvAcceptCall;
                     EvAccept PickResult] = Some s' /\
    lqueue s' = [1; 2] /\
    (lqueue s' = lqueue s /\ lsenders s' = lsenders s /\
     popped s' = popped s /\ workers s' = workers s /\
     closedSessions s' = closedSessions s /\
     exists l, returns s' = l ++ returns s /\ allClosed l).
Proof.
  eexists. eexists. split; [vm_compute; reflexivity|].
  split; [vm_compute; reflexivity|]. split; [reflexivity|].
  refine (cancelled_listener_leaves_queue openWorld _
    [EvAcceptCall; EvAccept PickQueue; EvAcceptCall; EvAccept PickResult] _ _ _ _ _).
  - reflexivity.
  - discriminate.
  - reflexivity.
  - vm_compute. reflexivity.
Defined.
